(** * The versioned message service (services/python-raw/service.py)

    A shallow embedding of the record store, the cursor pagination of the
    message listing, the version router and the request dispatcher, together
    with the properties stated about them. *)

From Stdlib Require Import ZArith Lia Ascii.
From stdpp Require Import base option list sorting strings gmap fin_maps.

Open Scope Z_scope.

(** ** Python values

    Request bodies are whatever [json.loads] returns, and the handlers store
    [body.get("author")] and [body.get("content")] without validation, so a
    message field holds an arbitrary decoded JSON value.  Python's [None] is
    [JNull].  (Floating point numbers are left out.) *)

#[local] Set Warnings "-register-all".

Inductive json : Type :=
  | JNull
  | JBool (b : bool)
  | JNum (n : Z)
  | JStr (s : string)
  | JArr (items : list json)
  | JObj (fields : list (string * json)).

(** [d.get(key)] on a decoded JSON object: the value, or [None]. *)
Fixpoint dict_get (fields : list (string * json)) (key : string) : json :=
  match fields with
  | [] => JNull
  | (k, v) :: rest => if decide (k = key) then v else dict_get rest key
  end.

(** [x is not None] *)
Definition is_not_None (x : json) : bool :=
  match x with JNull => false | _ => true end.

(** Python slicing [l[lo:hi]] with the usual clipping of the two bounds and
    the wrap-around of negative ones. *)
Definition slice_index (len i : Z) : Z :=
  if decide (i < 0) then Z.max 0 (i + len) else Z.min i len.

Definition py_slice {A} (l : list A) (lo hi : Z) : list A :=
  let len := Z.of_nat (length l) in
  let lo' := slice_index len lo in
  let hi' := slice_index len hi in
  take (Z.to_nat (hi' - lo')) (drop (Z.to_nat lo') l).

(** ** Message *)

Record Message : Type := mkMessage {
  id : Z;
  author : json;
  content : json;
  created : Z;
  updated : Z
}.

(** [Message.create]; [now] is the reading of [time.time_ns()]. *)
Definition Message_create (now : Z) (id' : Z) (author' content' : json) : Message :=
  {| id := id'; author := author'; content := content';
     created := now; updated := now |}.

(** ** Store

    [_data] is a Python dict keyed by integers.  The lock is not modelled:
    every operation is taken as one atomic step. *)

Record Store : Type := mkStore {
  _next_id : Z;
  _data : gmap Z Message
}.

(** [Store()] *)
Definition Store_init : Store := {| _next_id := 0; _data := ∅ |}.

Definition Store_create (self : Store) (now : Z) (author' content' : json)
  : Store * Message :=
  let id' := _next_id self in
  let message := Message_create now id' author' content' in
  ({| _next_id := id' + 1; _data := <[id' := message]> (_data self) |}, message).

Definition Store_get (self : Store) (id' : Z) : option Message :=
  _data self !! id'.

(** [sorted(self._data.values(), key=lambda message: message.id)].  The
    order among records of equal id is left open by the map; no two records
    of a store reached from [Store()] have the same id ([Store_wf]). *)
Definition id_le (a b : Message) : Prop := id a ≤ id b.

Global Instance id_le_dec : RelDecision id_le.
Proof. intros a b. unfold id_le. apply _. Defined.

Definition sorted_values (self : Store) : list Message :=
  merge_sort id_le (map_to_list (_data self)).*2.

(** [Store.list]: the [for ... else] scan is [list_find], which returns the
    first position whose record has [id >= start]. *)
Definition Store_list (self : Store) (start limit : Z)
  : list Message * option Message * list Message :=
  if decide (size (_data self) = 0%nat) then ([], None, []) else
  let data := sorted_values self in
  match list_find (λ value, start ≤ id value) data with
  | None => ([], None, [])
  | Some (i, _) =>
      let index := Z.of_nat i in
      let before := py_slice data (Z.max 0 (index - limit)) index in
      let current := data !! i in
      let after :=
        py_slice data (index + 1) (Z.min (Z.of_nat (length data)) (index + 11)) in
      (before, current, after)
  end.

(** [Store.put] and [Store.patch] mutate the stored message in place. *)
Definition Store_put (self : Store) (now : Z) (id' : Z)
    (new_author new_content : json)
  : Store * option Message :=
  match _data self !! id' with
  | None => (self, None)
  | Some old =>
      let message := {| id := old.(id); author := new_author; content := new_content;
                        created := old.(created); updated := now |} in
      ({| _next_id := _next_id self; _data := <[id' := message]> (_data self) |},
       Some message)
  end.

Definition Store_patch (self : Store) (now : Z) (id' : Z)
    (new_author new_content : json)
  : Store * option Message :=
  match _data self !! id' with
  | None => (self, None)
  | Some old =>
      let message :=
        {| id := old.(id);
           author := if is_not_None new_author then new_author else old.(author);
           content := if is_not_None new_content then new_content else old.(content);
           created := old.(created); updated := now |} in
      ({| _next_id := _next_id self; _data := <[id' := message]> (_data self) |},
       Some message)
  end.

Definition Store_delete (self : Store) (id' : Z) : Store * bool :=
  ({| _next_id := _next_id self; _data := delete id' (_data self) |},
   bool_decide (is_Some (_data self !! id'))).

(** ** HTTP vocabulary *)

(** [http.HTTPMethod] *)
Inductive HTTPMethod : Type :=
  CONNECT | DELETE | GET | HEAD | OPTIONS | PATCH | POST | PUT | TRACE.

Global Instance HTTPMethod_eq_dec : EqDecision HTTPMethod.
Proof. solve_decision. Defined.

(** [HTTPMethod(self.command)]: the member with that value; [None] stands
    for the [ValueError] raised when there is none. *)
Definition HTTPMethod_of (command : string) : option HTTPMethod :=
  if decide (command = "CONNECT") then Some CONNECT
  else if decide (command = "DELETE") then Some DELETE
  else if decide (command = "GET") then Some GET
  else if decide (command = "HEAD") then Some HEAD
  else if decide (command = "OPTIONS") then Some OPTIONS
  else if decide (command = "PATCH") then Some PATCH
  else if decide (command = "POST") then Some POST
  else if decide (command = "PUT") then Some PUT
  else if decide (command = "TRACE") then Some TRACE
  else None.

(** The members of [http.HTTPStatus] the service uses. *)
Inductive HTTPStatus : Type :=
  | OK | CREATED | BAD_REQUEST | NOT_FOUND | METHOD_NOT_ALLOWED
  | NOT_ACCEPTABLE | GONE | REQUEST_URI_TOO_LONG | INTERNAL_SERVER_ERROR.

Global Instance HTTPStatus_eq_dec : EqDecision HTTPStatus.
Proof. solve_decision. Defined.

Definition status_value (s : HTTPStatus) : Z :=
  match s with
  | OK => 200 | CREATED => 201 | BAD_REQUEST => 400 | NOT_FOUND => 404
  | METHOD_NOT_ALLOWED => 405 | NOT_ACCEPTABLE => 406 | GONE => 410
  | REQUEST_URI_TOO_LONG => 414 | INTERNAL_SERVER_ERROR => 500
  end.

(** The listing returned by [MessageHandlers.list]. *)
Record Page : Type := mkPage {
  page_data : list Message;
  page_next : option Z;
  page_previous : option Z
}.

(** Response bodies, before [json.dumps]. *)
Inductive Body : Type :=
  | BMessage (m : Message)        (* message.to_dict() *)
  | BError (text : string)        (* {"error": text} *)
  | BStatusOK                     (* {"status": "OK"} *)
  | BPage (p : Page).             (* {"data": .., "next": .., "previous": ..} *)

(** Header values, before formatting. *)
Inductive HeaderValue : Type :=
  | HText (s : string)
  | HContentType (version : option Z)  (* "application/json" [+ "; version=v"] *)
  | HAtTime (t : Z)                    (* f"@{t}" *)
  | HHttpDate (t : Z).                 (* formatdate(timeval=t, usegmt=True) *)

Abbreviation Headers := (gmap string HeaderValue).

(** What [_respond] writes to the connection. *)
Record Response : Type := mkResponse {
  status : HTTPStatus;
  sent_headers : list (string * HeaderValue);
  sent_body : option Body
}.

Definition _respond (status : HTTPStatus) (version : option Z)
    (body : option Body) (headers : option Headers) : Response :=
  {| status := status;
     sent_headers :=
       [("Content-Type"%string, HContentType version);
        ("Cache-Control"%string, HText "no-store");
        ("Connection"%string, HText "close")]
       ++ match headers with
          | Some headers => map_to_list headers
          | None => []
          end;
     sent_body := body |}.

Definition has_header (name : string) (r : Response) : bool :=
  bool_decide (name ∈ (sent_headers r).*1).

(** ** Requests

    [handle_one_request] is modelled from the request line on.  The parts
    done by library code are represented by their outcome. *)

(** The request body: [Content-Length] not positive, an exception other
    than [JSONDecodeError] while reading and decoding (not suppressed), a
    [JSONDecodeError] (suppressed), or the decoded value. *)
Inductive RawBody : Type :=
  | NoContent
  | BodyRaises
  | NotJson
  | Decoded (j : json).

(** The query string after [parse_qs], as far as a handler reads it:
    [None] when there is no ["start"] key, otherwise the outcome of
    [int(query["start"][0])], [Some None] being its [ValueError]. *)
Abbreviation Query := (option (option Z)).

(** [match.groupdict()] *)
Abbreviation Params := (list (string * string)).

Record Request : Type := mkRequest {
  command : string;                   (* self.command *)
  body_in : RawBody;
  accept_version : option Z;          (* the guarded extraction from Accept *)
  target : option (string * Query)    (* urlsplit(self.path) and parse_qs;
                                         None when urlsplit raises *)
}.

Inductive Incoming : Type :=
  | LineTooLong                       (* more than 65536 bytes *)
  | LineEmpty                         (* connection closed *)
  | ParseFailed                       (* parse_request() answered itself *)
  | Parsed (r : Request).

(** ** Handlers

    A handler returns a tuple of one to three items; [None] models a raised
    exception.  Every raising operation of the handlers below precedes the
    call into the store, so a handler that raises leaves the store as it
    was. *)

Inductive HandlerResult : Type :=
  | R1 (s : HTTPStatus)
  | R2 (s : HTTPStatus) (b : option Body)
  | R3 (s : HTTPStatus) (b : option Body) (h : option Headers).

(** [(list(result) + [None]*2)[:3]] *)
Definition pad3 (r : HandlerResult) : HTTPStatus * option Body * option Headers :=
  match r with
  | R1 s => (s, None, None)
  | R2 s b => (s, b, None)
  | R3 s b h => (s, b, h)
  end.

Definition Handler : Type :=
  Store → Z (* clock *) → HTTPMethod → Z → Params → Query → json →
  option (Store * HandlerResult).

(** [body.get(key)]: only a decoded JSON object has [get]. *)
Definition body_get (body : json) (key : string) : option json :=
  match body with
  | JObj fields => Some (dict_get fields key)
  | _ => None
  end.

(** [params[key]] *)
Fixpoint params_get (params : Params) (key : string) : option string :=
  match params with
  | [] => None
  | (k, v) :: rest => if decide (k = key) then Some v else params_get rest key
  end.

Definition is_digit (c : ascii) : bool :=
  bool_decide (48 ≤ Z.of_N (N_of_ascii c) ≤ 57).

Fixpoint int_of_digits (acc : Z) (s : string) : option Z :=
  match s with
  | EmptyString => Some acc
  | String c s' =>
      if is_digit c
      then int_of_digits (10 * acc + (Z.of_N (N_of_ascii c) - 48)) s'
      else None
  end.

(** [int(text)] on what the route pattern [\d+] lets through, a non-empty
    run of decimal digits; other texts count as [ValueError]. *)
Definition py_int (text : string) : option Z :=
  if decide (text = EmptyString) then None else int_of_digits 0 text.

Definition not_found_body : option Body :=
  Some (BError "Message with provided id not found").

(** [MessageHandlers] *)

Definition MessageHandlers_create : Handler :=
  λ store now method version params query body,
    author' ← body_get body "author";
    content' ← body_get body "content";
    let '(store, message) := Store_create store now author' content' in
    Some (store, R2 CREATED (Some (BMessage message))).

Definition MessageHandlers_get : Handler :=
  λ store now method version params query body,
    id' ← params_get params "id" ≫= py_int;
    match Store_get store id' with
    | None =>
        Some (store, R2 NOT_FOUND
                        (Some (BError "Message with provided id not found.")))
    | Some message => Some (store, R2 OK (Some (BMessage message)))
    end.

(** The listing for a cursor [start]: the body of [MessageHandlers.list]
    after the query has been read. *)
Definition page (store : Store) (start : Z) : Page :=
  let limit := 10 in
  let '(before, current, after) := Store_list store start limit in
  let previous :=
    if decide (0 < length before)%nat then id <$> before !! 0%nat else None in
  match current with
  | None => {| page_data := []; page_next := None; page_previous := previous |}
  | Some current =>
      let data :=
        [current] ++ (if decide (0 < length after)%nat
                      then py_slice after 0 (limit - 1) else []) in
      {| page_data := data;
         page_next :=
           if decide (Z.of_nat (length after) = limit)
           then id <$> after !! Z.to_nat (limit - 1) else None;
         page_previous := previous |}
  end.

Definition MessageHandlers_list : Handler :=
  λ store now method version params query body,
    start ← match query with
            | Some start => start
            | None => Some 0
            end;
    Some (store, R2 OK (Some (BPage (page store start)))).

Definition MessageHandlers_put : Handler :=
  λ store now method version params query body,
    id' ← params_get params "id" ≫= py_int;
    author' ← body_get body "author";
    content' ← body_get body "content";
    match Store_put store now id' author' content' with
    | (store, None) => Some (store, R2 NOT_FOUND not_found_body)
    | (store, Some message) => Some (store, R2 OK (Some (BMessage message)))
    end.

Definition MessageHandlers_patch : Handler :=
  λ store now method version params query body,
    id' ← params_get params "id" ≫= py_int;
    author' ← body_get body "author";
    content' ← body_get body "content";
    match Store_patch store now id' author' content' with
    | (store, None) => Some (store, R2 NOT_FOUND not_found_body)
    | (store, Some message) => Some (store, R2 OK (Some (BMessage message)))
    end.

Definition MessageHandlers_delete : Handler :=
  λ store now method version params query body,
    id' ← params_get params "id" ≫= py_int;
    match Store_delete store id' with
    | (store, false) => Some (store, R2 NOT_FOUND not_found_body)
    | (store, true) => Some (store, R1 OK)
    end.

(** ** Routes

    The four path patterns registered by [main], matched with
    [re.fullmatch].  A path is the text of the request target, decoded as
    Latin-1, in which [\d] only matches the ten ASCII digits. *)

Inductive Pattern : Type :=
  | RxAny          (* r".*" *)
  | RxRoot         (* r"/?" *)
  | RxMessage      (* r"/message/?" *)
  | RxMessageId.   (* r"/message/(?P<id>\d+)/?" *)

Definition newline : ascii := ascii_of_nat 10.

(** [.] matches every character but a newline. *)
Fixpoint no_newline (s : string) : bool :=
  match s with
  | EmptyString => true
  | String c s' => if decide (c = newline) then false else no_newline s'
  end.

Fixpoint strip_prefix (p s : string) : option string :=
  match p, s with
  | EmptyString, _ => Some s
  | String a p', String b s' => if decide (a = b) then strip_prefix p' s' else None
  | String _ _, EmptyString => None
  end.

(** The longest run of digits at the front, and what follows it. *)
Fixpoint span_digits (s : string) : string * string :=
  match s with
  | EmptyString => (EmptyString, EmptyString)
  | String c s' =>
      if is_digit c
      then let '(d, r) := span_digits s' in (String c d, r)
      else (EmptyString, s)
  end.

Definition fullmatch (rx : Pattern) (path : string) : option Params :=
  match rx with
  | RxAny => if no_newline path then Some [] else None
  | RxRoot =>
      if decide (path = "" ∨ path = "/") then Some [] else None
  | RxMessage =>
      if decide (path = "/message" ∨ path = "/message/") then Some [] else None
  | RxMessageId =>
      rest ← strip_prefix "/message/" path;
      let '(d, r) := span_digits rest in
      if decide (d ≠ "" ∧ (r = "" ∨ r = "/")) then Some [("id"%string, d)] else None
  end.

(** [router[VERSION][METHOD][PATH_REGEX] = HANDLER].  The innermost dict is
    kept as the list of its items in insertion order, which is the order
    the dispatcher tries them in. *)
Abbreviation Routes := (list (Pattern * Handler)).
Abbreviation Router := (gmap Z (HTTPMethod → option Routes)).

(** [deprecation[VERSION] = (DEPRECATION_TIME, SUNSET_TIME)] *)
Abbreviation Deprecation := (gmap Z (Z * Z)).

(** The [for ... else] over [request_paths.items()]: first match wins. *)
Fixpoint find_route (request_paths : Routes) (request_path : string)
  : option (Handler * Params) :=
  match request_paths with
  | [] => None
  | (request_path_regex, request_handler) :: rest =>
      match fullmatch request_path_regex request_path with
      | Some request_params => Some (request_handler, request_params)
      | None => find_route rest request_path
      end
  end.

(** ** RequestHandler *)

Definition internal_error : Response :=
  _respond INTERNAL_SERVER_ERROR None (Some (BError "Internal error.")) None.

Definition not_acceptable : Response :=
  _respond NOT_ACCEPTABLE None (Some (BError "Invalid or missing version.")) None.

Section RequestHandler.
Variable router : Router.
Variable deprecation : Deprecation.

(** From "Extract the version" to the end of the [try] block;
    [request_body] is [JNull] for Python's [None]. *)
Definition dispatch (store : Store) (now : Z) (r : Request) (request_body : json)
  : Store * Response :=
  match accept_version r with
  | None => (store, not_acceptable)
  | Some request_version =>
  match router !! request_version with
  | None => (store, not_acceptable)
  | Some methods =>
  match HTTPMethod_of (command r) with
  | None => (store, internal_error)
  | Some request_method =>
  match methods request_method with
  | None =>
      (store, _respond METHOD_NOT_ALLOWED None
                       (Some (BError "Method not allowed.")) None)
  | Some request_paths =>
  match target r with
  | None => (store, internal_error)
  | Some (request_path, request_query) =>
  match find_route request_paths request_path with
  | None =>
      (store, _respond NOT_FOUND (Some request_version)
                       (Some (BError "Resource not found.")) None)
  | Some (request_handler, request_params) =>
  match request_handler store now request_method request_version
          request_params request_query request_body with
  | None => (store, internal_error)
  | Some (store, result) =>
      let '(response_status, response_body, response_headers) := pad3 result in
      let response_headers :=
        match deprecation !! request_version with
        | Some (deprecated_at, sunset_at) =>
            Some (<["Sunset"%string := HHttpDate sunset_at]>
                  (<["Deprecation"%string := HAtTime deprecated_at]>
                   (default ∅ response_headers)))
        | None => response_headers
        end in
      (store, _respond response_status (Some request_version)
                       response_body response_headers)
  end end end end end end end.

(** [handle_one_request]; [None] when this code sends nothing. *)
Definition handle_one_request (store : Store) (now : Z) (incoming : Incoming)
  : Store * option Response :=
  match incoming with
  | LineTooLong =>
      (store, Some (_respond REQUEST_URI_TOO_LONG None
                             (Some (BError "Request URI too long.")) None))
  | LineEmpty => (store, None)
  | ParseFailed => (store, None)
  | Parsed r =>
      match body_in r with
      | BodyRaises => (store, Some internal_error)
      | NotJson | Decoded JNull =>
          (store, Some (_respond BAD_REQUEST None
                                 (Some (BError "Malformed JSON body.")) None))
      | NoContent => let '(store, resp) := dispatch store now r JNull in (store, Some resp)
      | Decoded request_body =>
          let '(store, resp) := dispatch store now r request_body in (store, Some resp)
      end
  end.
End RequestHandler.

(** ** main *)

Definition gone : Handler :=
  λ store now method version params query body, Some (store, R1 GONE).

Definition health : Handler :=
  λ store now method version params query body,
    Some (store, R2 OK (Some BStatusOK)).

Definition retired_routes (m : HTTPMethod) : option Routes :=
  match m with
  | GET | POST | PUT | PATCH | DELETE => Some [(RxAny, gone)]
  | _ => None
  end.

Definition message_routes (m : HTTPMethod) : option Routes :=
  match m with
  | GET => Some [(RxRoot, health);
                 (RxMessageId, MessageHandlers_get);
                 (RxMessage, MessageHandlers_list)]
  | POST => Some [(RxMessage, MessageHandlers_create)]
  | PUT => Some [(RxMessageId, MessageHandlers_put)]
  | PATCH => Some [(RxMessageId, MessageHandlers_patch)]
  | DELETE => Some [(RxMessageId, MessageHandlers_delete)]
  | _ => None
  end.

(** The router built by [main]. *)
Definition main_router : Router :=
  <[2 := message_routes]> (<[1 := message_routes]> (<[0 := retired_routes]> ∅)).

(** The deprecation table built by [main]; [t1] to [t4] are the four
    readings of [int(time.time())]. *)
Definition main_deprecation (t1 t2 t3 t4 : Z) : Deprecation :=
  <[1 := (t3, t4 + 60*60*24*30)]> (<[0 := (t1 - 60*60*24*30, t2)]> ∅).

(** One request served by the process started by [main]. *)
Definition serve (t1 t2 t3 t4 : Z) (store : Store) (now : Z) (incoming : Incoming)
  : Store * option Response :=
  handle_one_request main_router (main_deprecation t1 t2 t3 t4) store now incoming.

(** ** Clients and traces used in the statements *)

Definition empty_page : Page :=
  {| page_data := []; page_next := None; page_previous := None |}.

(** A client following the [next] cursor until it is absent, collecting the
    pages; [fuel] bounds the number of requests. *)
Fixpoint paginate (fuel : nat) (store : Store) (start : Z)
  : option (list Message) :=
  match fuel with
  | O => None
  | S fuel =>
      let p := page store start in
      match page_next p with
      | None => Some (page_data p)
      | Some next => (page_data p ++.) <$> paginate fuel store next
      end
  end.

(** The mutating calls of the store. *)
Inductive Op : Type :=
  | OpCreate (now : Z) (author' content' : json)
  | OpPut (now : Z) (id' : Z) (author' content' : json)
  | OpPatch (now : Z) (id' : Z) (author' content' : json)
  | OpDelete (id' : Z).

(** Runs the calls in order; the second component lists the ids of the
    messages returned by the [create] calls, in call order. *)
Fixpoint run (store : Store) (ops : list Op) : Store * list Z :=
  match ops with
  | [] => (store, [])
  | OpCreate now author' content' :: ops =>
      let '(store, message) := Store_create store now author' content' in
      let '(store, ids) := run store ops in
      (store, id message :: ids)
  | OpPut now id' author' content' :: ops =>
      run (Store_put store now id' author' content').1 ops
  | OpPatch now id' author' content' :: ops =>
      run (Store_patch store now id' author' content').1 ops
  | OpDelete id' :: ops => run (Store_delete store id').1 ops
  end.

(** A store filled by [n] calls of [create]. *)
Definition store_of_size (n : nat) : Store :=
  (run Store_init (replicate n (OpCreate 7 (JStr "a") (JStr "x")))).1.

Definition request (command : string) (path : string) (version : Z) : Incoming :=
  Parsed {| command := command; body_in := NoContent;
            accept_version := Some version; target := Some (path, None) |}.

(** The request body is absent or decodes to something other than [null]. *)
Definition body_present_or_absent (b : RawBody) : Prop :=
  match b with
  | NoContent => True
  | Decoded j => j ≠ JNull
  | BodyRaises | NotJson => False
  end.

(** The five methods [main] registers routes for. *)
Definition routed_commands : list string :=
  ["GET"; "POST"; "PUT"; "PATCH"; "DELETE"]%string.

(** What every store reached from [Store()] satisfies: a message is kept
    under its own id, and the ids in use lie below the counter. *)
Definition Store_wf (self : Store) : Prop :=
  0 ≤ _next_id self
  ∧ map_Forall (λ k m, id m = k ∧ 0 ≤ k < _next_id self) (_data self).

(** The message [create] returns in [store_of_size] for id [k]. *)
Definition message_n (k : Z) : Message :=
  Message_create 7 k (JStr "a") (JStr "x").

(** [PATCH /message/0] and [PUT /message/0] with a one-field body. *)
Definition content_only : json := JObj [("content"%string, JStr "z")].

Definition patch_message_0 : Incoming :=
  Parsed {| command := "PATCH"; body_in := Decoded content_only;
            accept_version := Some 2; target := Some ("/message/0"%string, None) |}.

Global Instance json_eq_JNull_dec (j : json) : Decision (j = JNull).
Proof. destruct j; (by left) || (by right). Defined.

(** ** Further definitions *)

(** [Message.to_dict]: [asdict(self)], the fields in declaration order. *)
Definition Message_to_dict (m : Message) : json :=
  JObj [("id"%string, JNum (id m));
        ("author"%string, author m);
        ("content"%string, content m);
        ("created"%string, JNum (created m));
        ("updated"%string, JNum (updated m))].

(** The clock reading a store call takes, if it takes one. *)
Definition op_clock (op : Op) : option Z :=
  match op with
  | OpCreate now _ _ | OpPut now _ _ _ | OpPatch now _ _ _ => Some now
  | OpDelete _ => None
  end.

(** A response that carries the header [name] with the value [value]. *)
Definition sends (r : Response) (name : string) (value : HeaderValue) : Prop :=
  (name, value) ∈ sent_headers r.

(** Every record was created no later than it was last written, and last
    written no later than [t]. *)
Definition stamped_until (t : Z) (self : Store) : Prop :=
  map_Forall (λ _ m, created m ≤ updated m ≤ t) (_data self).

(** The handler a route of [main] resolves to, by method. *)
Definition resolves (v : Z) (m : HTTPMethod) (h : Handler) : Prop :=
  match m with
  | GET => (v = 0 ∧ h = gone)
           ∨ (v ≠ 0 ∧ (h = health ∨ h = MessageHandlers_get ∨ h = MessageHandlers_list))
  | POST => (v = 0 ∧ h = gone) ∨ (v ≠ 0 ∧ h = MessageHandlers_create)
  | PUT => (v = 0 ∧ h = gone) ∨ (v ≠ 0 ∧ h = MessageHandlers_put)
  | PATCH => (v = 0 ∧ h = gone) ∨ (v ≠ 0 ∧ h = MessageHandlers_patch)
  | DELETE => (v = 0 ∧ h = gone) ∨ (v ≠ 0 ∧ h = MessageHandlers_delete)
  | _ => False
  end.


(** The headers the dispatcher hands to [_respond] after a handler that set
    none has returned. *)
Definition annotated (deprecation : Deprecation) (v : Z) : option Headers :=
  match deprecation !! v with
  | Some (deprecated_at, sunset_at) =>
      Some (<["Sunset"%string := HHttpDate sunset_at]>
            (<["Deprecation"%string := HAtTime deprecated_at]> ∅))
  | None => None
  end.

(** The responses the dispatcher writes itself. *)
Definition method_not_allowed : Response :=
  _respond METHOD_NOT_ALLOWED None (Some (BError "Method not allowed.")) None.

Definition route_not_found (v : Z) : Response :=
  _respond NOT_FOUND (Some v) (Some (BError "Resource not found.")) None.

(** The decoded body the dispatcher goes on with, if it does. *)
Definition request_body (b : RawBody) : option json :=
  match b with
  | NoContent => Some JNull
  | Decoded j => if decide (j = JNull) then None else Some j
  | BodyRaises | NotJson => None
  end.

Definition bad_request : Response :=
  _respond BAD_REQUEST None (Some (BError "Malformed JSON body.")) None.

Definition uri_too_long : Response :=
  _respond REQUEST_URI_TOO_LONG None (Some (BError "Request URI too long.")) None.

(** * Properties *)

(** ** Slices and the sorted snapshot *)

Section slices.
Context {A : Type}.
Implicit Types l : list A.

Lemma py_slice_nonneg l (lo hi : nat) :
  py_slice l (Z.of_nat lo) (Z.of_nat hi) = take (hi - lo) (drop lo l).
Proof.
  unfold py_slice, slice_index.
  repeat case_decide; try lia.
  destruct (decide (lo ≤ length l)%nat) as [Hlo|Hlo].
  - replace (Z.to_nat (Z.of_nat lo `min` Z.of_nat (length l))) with lo by lia.
    destruct (decide (hi ≤ length l)%nat) as [Hhi|Hhi].
    + f_equal. lia.
    + rewrite !take_ge; [done | rewrite length_drop; lia ..].
  - rewrite !drop_ge by lia. by rewrite !take_nil.
Qed.
End slices.

Lemma sorted_values_empty self :
  size (_data self) = 0%nat → sorted_values self = [].
Proof.
  intros Hsize%map_size_empty_inv. unfold sorted_values.
  by rewrite Hsize, map_to_list_empty.
Qed.

(** [Store.list] without the Python slicing. *)
Lemma Store_list_spec self start (limit : nat) :
  Store_list self start (Z.of_nat limit) =
    let data := sorted_values self in
    match list_find (λ value, start ≤ id value) data with
    | None => ([], None, [])
    | Some (i, current) =>
        (take (i - (i - limit)) (drop (i - limit) data), Some current,
         take 10 (drop (S i) data))
    end.
Proof.
  unfold Store_list. case_decide as Hsize.
  { by rewrite (sorted_values_empty _ Hsize). }
  cbv zeta. destruct (list_find _ _) as [[i current]|] eqn:Hfind; [|done].
  apply list_find_Some in Hfind as (Hi & _ & _).
  pose proof (lookup_lt_Some _ _ _ Hi) as Hlt.
  rewrite Hi. f_equal; [f_equal|].
  - replace (0 `max` (Z.of_nat i - Z.of_nat limit)) with (Z.of_nat (i - limit)) by lia.
    apply py_slice_nonneg.
  - replace (Z.of_nat i + 1) with (Z.of_nat (S i)) by lia.
    replace (Z.of_nat (length (sorted_values self)) `min` (Z.of_nat i + 11))
      with (Z.of_nat (length (sorted_values self) `min` (i + 11))) by lia.
    rewrite py_slice_nonneg.
    destruct (decide (i + 11 ≤ length (sorted_values self))%nat).
    + f_equal. lia.
    + rewrite !take_ge; [done | rewrite length_drop; lia ..].
Qed.

(** The after-window does not depend on [limit]. *)
Lemma after_window_ignores_limit self start limit :
  (Store_list self start limit).2 = (Store_list self start 10).2.
Proof.
  unfold Store_list. case_decide; [done|].
  cbv zeta. by destruct (list_find _ _) as [[i c]|].
Qed.

Lemma after_window_at_most_ten self start limit :
  (length (Store_list self start limit).2 ≤ 10)%nat.
Proof.
  rewrite after_window_ignores_limit. change 10 with (Z.of_nat 10).
  rewrite Store_list_spec. cbv zeta.
  destruct (list_find _ _) as [[i c]|]; simpl; [|lia].
  rewrite length_take. lia.
Qed.

(** The listing in terms of positions in the sorted snapshot. *)
Lemma page_spec self start :
  page self start =
    let data := sorted_values self in
    match list_find (λ value, start ≤ id value) data with
    | None => empty_page
    | Some (i, _) =>
        {| page_data := take 10 (drop i data);
           page_next := id <$> data !! (i + 10)%nat;
           page_previous :=
             if decide (0 < i)%nat then id <$> data !! (i - 10)%nat else None |}
    end.
Proof.
  unfold page. change 10 with (Z.of_nat 10) at 1. rewrite Store_list_spec.
  cbv zeta. destruct (list_find _ _) as [[i current]|] eqn:Hfind; [|done].
  apply list_find_Some in Hfind as (Hi & _ & _).
  pose proof (lookup_lt_Some _ _ _ Hi) as Hlt.
  set (data := sorted_values self) in *.
  f_equal.
  - rewrite (drop_S _ _ _ Hi). cbn [take app]. f_equal.
    change (10 - 1) with (Z.of_nat 9). change 0 with (Z.of_nat 0).
    case_decide as Hlen.
    + rewrite py_slice_nonneg, drop_0, take_take. done.
    + rewrite length_take, length_drop in Hlen.
      rewrite drop_ge by lia. done.
  - rewrite length_take, length_drop. case_decide as Hlen.
    + change (Z.to_nat (10 - 1)) with 9%nat.
      rewrite lookup_take_lt, lookup_drop by lia. do 2 f_equal. lia.
    + rewrite (lookup_ge_None_2 data) by lia. done.
  - rewrite length_take, length_drop. repeat case_decide; try lia; try done.
    rewrite lookup_take_lt, lookup_drop by lia. do 2 f_equal. lia.
Qed.

Lemma elem_of_sorted_values self m :
  m ∈ sorted_values self ↔ ∃ k, _data self !! k = Some m.
Proof.
  unfold sorted_values. rewrite merge_sort_Permutation, list_elem_of_fmap.
  split.
  - intros ([k m'] & -> & Hin). exists k. by apply elem_of_map_to_list.
  - intros [k Hk]. exists (k, m). split; [done|]. by apply elem_of_map_to_list.
Qed.

(** C3. Whatever the store and the cursor, the page body is the current
    record followed by the first nine records of the after-window, so at
    most ten records; the next cursor is the id of [after[9]] exactly when
    the after-window has ten records and is absent otherwise; and a next
    cursor names the record that follows the page body in the snapshot. *)
Theorem page_body_and_next self start before current after :
  Store_list self start 10 = (before, current, after) →
  let p := page self start in
  page_data p = match current with Some c => c :: take 9 after | None => [] end
  ∧ (length (page_data p) ≤ 10)%nat
  ∧ page_next p =
      (if decide (length after = 10%nat) then id <$> after !! 9%nat else None)
  ∧ (is_Some (page_next p) ↔ is_Some current ∧ length after = 10%nat)
  ∧ (∀ n, page_next p = Some n →
       ∃ pre r rest,
         sorted_values self = pre ++ page_data p ++ r :: rest ∧ id r = n).
Proof.
  change 10 with (Z.of_nat 10) at 1. rewrite Store_list_spec, page_spec.
  cbv zeta. destruct (list_find _ _) as [[i c]|] eqn:Hfind.
  - intros [= <- <- <-]. simpl.
    apply list_find_Some in Hfind as (Hi & _ & _).
    pose proof (lookup_lt_Some _ _ _ Hi) as Hlt.
    set (data := sorted_values self) in *.
    rewrite !length_take, !length_drop, take_take.
    split_and!.
    + by rewrite (drop_S _ _ _ Hi).
    + lia.
    + case_decide as Hlen.
      * rewrite lookup_take_lt, lookup_drop by lia. do 2 f_equal. lia.
      * by rewrite (lookup_ge_None_2 data) by lia.
    + rewrite fmap_is_Some, lookup_lt_is_Some. split; [|intros [_ ?]; lia].
      intros. split; [by eexists | lia].
    + intros n Hn. apply fmap_Some in Hn as (r & Hr & ->).
      exists (take i data), r, (drop (S (i + 10)) data). split; [|done].
      rewrite <- (drop_S _ _ _ Hr), <- (drop_drop data 10 i).
      by rewrite !take_drop.
  - intros [= <- <- <-]. simpl. split_and!; try done; try lia.
    split; [by intros [? [=]] | by intros [[? [=]] _]].
Qed.

Lemma page_body_and_next_witness :
  Store_list (store_of_size 12) 1 10
  = ([message_n 0], Some (message_n 1), message_n <$> seqZ 2 10)
  ∧ page_data (page (store_of_size 12) 1) = message_n <$> seqZ 1 10
  ∧ page_next (page (store_of_size 12) 1) = Some 11.
Proof.
  assert (Store_list (store_of_size 12) 1 10
          = ([message_n 0], Some (message_n 1), message_n <$> seqZ 2 10)) as H
    by (vm_compute; reflexivity).
  destruct (page_body_and_next _ _ _ _ _ H) as (Hdata & _ & Hnext & _).
  split_and!; [exact H | rewrite Hdata | rewrite Hnext]; vm_compute; reflexivity.
Defined.

(** C4. When the cursor is greater than the id of every stored record, the
    store reports no current record and the listing is empty, with neither
    a previous nor a next cursor, whatever the store holds. *)
Theorem page_past_last_id self start now method version params body :
  (∀ k m, _data self !! k = Some m → id m < start) →
  Store_list self start 10 = ([], None, [])
  ∧ page self start = empty_page
  ∧ MessageHandlers_list self now method version params (Some (Some start)) body
    = Some (self, R2 OK (Some (BPage empty_page))).
Proof.
  intros Hpast.
  assert (list_find (λ value, start ≤ id value) (sorted_values self) = None)
    as Hfind.
  { apply list_find_None, Forall_forall. intros m [k Hk]%elem_of_sorted_values.
    apply Hpast in Hk. lia. }
  assert (page self start = empty_page) as Hpage.
  { rewrite page_spec. cbv zeta. by rewrite Hfind. }
  split_and!; [|done|].
  - change 10 with (Z.of_nat 10). rewrite Store_list_spec. cbv zeta.
    by rewrite Hfind.
  - unfold MessageHandlers_list. simpl. by rewrite Hpage.
Qed.

Lemma page_past_last_id_witness :
  map_Forall (λ _ m, id m < 3) (_data (store_of_size 3))
  ∧ page (store_of_size 3) 3 = empty_page.
Proof.
  assert (map_Forall (λ _ m, id m < 3) (_data (store_of_size 3))) as H.
  { apply (bool_decide_unpack _). vm_compute. exact I. }
  split; [exact H|].
  exact (proj1 (proj2 (page_past_last_id (store_of_size 3) 3 0 GET 1 [] JNull H))).
Defined.

(** ** Following the cursors *)

Global Instance id_le_total : Total id_le.
Proof. intros a b. unfold id_le. lia. Qed.

Global Instance id_le_trans : Transitive id_le.
Proof. intros a b c. unfold id_le. lia. Qed.

Lemma Sorted_le_seq j n : Sorted le (seq j n).
Proof.
  revert j. induction n as [|n IH]; intros j; simpl; constructor; [done|].
  destruct n; simpl; constructor. lia.
Qed.

Lemma Sorted_upto N : Sorted Z.le (Z.of_nat <$> seq 0 N).
Proof. eapply Sorted_fmap, Sorted_le_seq. intros; lia. Qed.

Lemma sorted_values_ids_sorted self : Sorted Z.le (id <$> sorted_values self).
Proof.
  eapply Sorted_fmap; [|apply (Sorted_merge_sort id_le)]. by intros x y.
Qed.

Section round_trip.
Variables (self : Store) (N : nat).
Hypothesis Hids :
  id <$> (map_to_list (_data self)).*2 ≡ₚ Z.of_nat <$> seq 0 N.

Lemma sorted_ids : id <$> sorted_values self = Z.of_nat <$> seq 0 N.
Proof.
  apply (Sorted_unique Z.le);
    [apply sorted_values_ids_sorted | apply Sorted_upto |].
  unfold sorted_values. by rewrite merge_sort_Permutation.
Qed.

Lemma sorted_values_length : length (sorted_values self) = N.
Proof.
  rewrite <- (length_fmap id), sorted_ids, length_fmap. apply length_seq.
Qed.

Lemma sorted_values_id j m :
  sorted_values self !! j = Some m → id m = Z.of_nat j.
Proof.
  intros Hj. pose proof (f_equal (.!! j) sorted_ids) as Heq. simpl in Heq.
  rewrite !list_lookup_fmap, Hj in Heq. simpl in Heq.
  destruct (seq 0 N !! j) as [j'|] eqn:Hseq; [|done].
  apply lookup_seq in Hseq as [-> _]. by injection Heq.
Qed.

(** A cursor taken from the record at position [j] finds position [j]. *)
Lemma find_cursor (j : nat) m :
  sorted_values self !! j = Some m →
  list_find (λ value, id m ≤ id value) (sorted_values self) = Some (j, m).
Proof.
  intros Hj. apply list_find_Some. split_and!; [done|lia|].
  intros j' m' Hj' Hlt.
  rewrite (sorted_values_id _ _ Hj), (sorted_values_id _ _ Hj'). lia.
Qed.

Lemma paginate_from fuel (j : nat) m :
  sorted_values self !! j = Some m →
  (N - j ≤ 10 * fuel)%nat →
  paginate fuel self (id m) = Some (drop j (sorted_values self)).
Proof.
  revert j m. induction fuel as [|fuel IH]; intros j m Hj Hfuel.
  { apply lookup_lt_Some in Hj. rewrite sorted_values_length in Hj. lia. }
  simpl. rewrite page_spec. cbv zeta. rewrite (find_cursor _ _ Hj). simpl.
  destruct (sorted_values self !! (j + 10)%nat) as [r|] eqn:Hr; simpl.
  - rewrite (IH _ _ Hr) by lia. simpl. f_equal.
    rewrite <- (drop_drop _ 10 j). apply take_drop.
  - f_equal. apply take_ge. apply lookup_ge_None in Hr.
    rewrite length_drop. lia.
Qed.

Lemma paginate_all fuel :
  (N < 10 * fuel)%nat → paginate fuel self 0 = Some (sorted_values self).
Proof.
  intros Hfuel. destruct (sorted_values self !! 0%nat) as [m|] eqn:H0.
  - rewrite <- (sorted_values_id _ _ H0 : id m = 0).
    rewrite (paginate_from fuel 0 m) by (done || lia). by rewrite drop_0.
  - destruct fuel as [|fuel]; [lia|]. simpl. rewrite page_spec. cbv zeta.
    destruct (sorted_values self) as [|? ?]; [done|discriminate].
Qed.
End round_trip.

(** C1. For a store whose records have the ids [0 .. N-1], starting at
    cursor 0 and following the next cursor until it is absent ends (within
    [fuel] requests, [N < 10 * fuel]) and yields every record of the store
    exactly once, in ascending order of id. *)
Theorem pagination_round_trip (self : Store) (N fuel : nat) :
  id <$> (map_to_list (_data self)).*2 ≡ₚ Z.of_nat <$> seq 0 N →
  (N < 10 * fuel)%nat →
  ∃ l, paginate fuel self 0 = Some l
       ∧ l ≡ₚ (map_to_list (_data self)).*2
       ∧ id <$> l = Z.of_nat <$> seq 0 N.
Proof.
  intros Hids Hfuel. exists (sorted_values self). split_and!.
  - by apply (paginate_all self N).
  - apply merge_sort_Permutation.
  - by apply sorted_ids.
Qed.

Lemma pagination_round_trip_witness :
  id <$> (map_to_list (_data (store_of_size 23))).*2 ≡ₚ Z.of_nat <$> seq 0 23
  ∧ (23 < 10 * 3)%nat
  ∧ ∃ l, paginate 3 (store_of_size 23) 0 = Some l
         ∧ l ≡ₚ (map_to_list (_data (store_of_size 23))).*2
         ∧ id <$> l = Z.of_nat <$> seq 0 23.
Proof.
  assert (id <$> (map_to_list (_data (store_of_size 23))).*2
          ≡ₚ Z.of_nat <$> seq 0 23) as Hids.
  { rewrite <- (merge_sort_Permutation Z.le). vm_compute. reflexivity. }
  assert (23 < 10 * 3)%nat as Hfuel by lia.
  split_and!; [exact Hids | exact Hfuel |].
  exact (pagination_round_trip (store_of_size 23) 23 3 Hids Hfuel).
Defined.

(** ** Identifiers *)

Lemma Store_put_next_id self now k a c :
  _next_id (Store_put self now k a c).1 = _next_id self.
Proof. unfold Store_put. by destruct (_data self !! k). Qed.

Lemma Store_patch_next_id self now k a c :
  _next_id (Store_patch self now k a c).1 = _next_id self.
Proof. unfold Store_patch. by destruct (_data self !! k). Qed.

(** The ids handed out from a store are its counter and its successors. *)
Lemma run_ids store ops :
  (run store ops).2
  = (λ i : nat, _next_id store + Z.of_nat i) <$> seq 0 (length (run store ops).2).
Proof.
  revert store. induction ops as [|op ops IH]; intros store; [done|].
  destruct op as [now a c|now k a c|now k a c|k]; simpl.
  - specialize (IH (Store_create store now a c).1). simpl in IH.
    destruct (run _ ops) as [store' ids]. simpl in *.
    f_equal; [lia|]. rewrite IH at 1. rewrite <- fmap_S_seq, <- list_fmap_compose.
    apply list_fmap_ext. intros _ i _. simpl. lia.
  - rewrite IH at 1. by rewrite Store_put_next_id.
  - rewrite IH at 1. by rewrite Store_patch_next_id.
  - by rewrite IH at 1.
Qed.

(** C8. Whatever the sequence of create, put, patch and delete calls on a
    fresh store, the ids given out by the create calls are 0, 1, 2, ... in
    call order: they start at 0, increase strictly with the order of
    creation, are pairwise distinct, and no id is given out twice, deletes
    included. *)
Theorem create_ids_sequential (ops : list Op) :
  let ids := (run Store_init ops).2 in
  ids = Z.of_nat <$> seq 0 (length ids)
  ∧ NoDup ids
  ∧ (∀ (i j : nat) a b,
       ids !! i = Some a → ids !! j = Some b → (i < j)%nat → a < b).
Proof.
  intros ids.
  assert (ids = Z.of_nat <$> seq 0 (length ids)) as Hids.
  { subst ids. rewrite run_ids at 1. apply list_fmap_ext. intros; simpl; lia. }
  split_and!; [done| |].
  - rewrite Hids. apply NoDup_fmap_2; [apply _ | apply NoDup_seq].
  - intros i j a b. rewrite Hids, !list_lookup_fmap.
    intros (i' & [-> _]%lookup_seq & ->)%fmap_Some
           (j' & [-> _]%lookup_seq & ->)%fmap_Some. lia.
Qed.

Lemma dict_get_absent fields key :
  key ∉ fields.*1 → dict_get fields key = JNull.
Proof.
  induction fields as [|[k v] fields IH]; [done|]. simpl.
  rewrite not_elem_of_cons. intros [Hne Hnotin]. case_decide; [congruence|auto].
Qed.

Section invariant.
Implicit Types self : Store.

Lemma Store_init_wf : Store_wf Store_init.
Proof. split; [done | apply map_Forall_empty]. Qed.

Lemma Store_create_wf self now a c :
  Store_wf self → Store_wf (Store_create self now a c).1.
Proof.
  intros [Hnext Hwf]. split; simpl; [lia|].
  apply map_Forall_insert_2; simpl; [lia|].
  eapply map_Forall_impl; [exact Hwf|]. simpl. intros k m [? ?]. split; [done|lia].
Qed.

Lemma Store_put_wf self now k a c :
  Store_wf self → Store_wf (Store_put self now k a c).1.
Proof.
  intros [Hnext Hwf]. unfold Store_put.
  destruct (_data self !! k) as [old|] eqn:Hold; [|done].
  split; simpl; [done|]. apply map_Forall_insert_2; [|done].
  apply (Hwf _ _ Hold).
Qed.

Lemma Store_patch_wf self now k a c :
  Store_wf self → Store_wf (Store_patch self now k a c).1.
Proof.
  intros [Hnext Hwf]. unfold Store_patch.
  destruct (_data self !! k) as [old|] eqn:Hold; [|done].
  split; simpl; [done|]. apply map_Forall_insert_2; [|done].
  apply (Hwf _ _ Hold).
Qed.

Lemma Store_delete_wf self k :
  Store_wf self → Store_wf (Store_delete self k).1.
Proof.
  intros [Hnext Hwf]. split; simpl; [done|]. by apply map_Forall_delete.
Qed.

(** Every store reached from [Store()] keeps each message under its own id,
    so the snapshot never holds two records with the same id. *)
Lemma run_wf self ops : Store_wf self → Store_wf (run self ops).1.
Proof.
  revert self. induction ops as [|op ops IH]; intros self Hwf; [done|].
  destruct op as [now a c|now k a c|now k a c|k]; simpl.
  - pose proof (IH _ (Store_create_wf self now a c Hwf)) as IH'. simpl in IH'.
    by destruct (run _ ops).
  - by apply IH, Store_put_wf.
  - by apply IH, Store_patch_wf.
  - by apply IH, (Store_delete_wf self k).
Qed.
End invariant.

(** ** Writes *)

(** C10. For an existing record, a PUT whose body is a JSON object writes
    [body.get("author")] and [body.get("content")] into the record: a field
    the body omits becomes [None], it is neither kept nor rejected. *)
Theorem put_overwrites_with_missing_fields
    self now method version params query fields k old :
  params_get params "id" ≫= py_int = Some k →
  _data self !! k = Some old →
  let new := {| id := id old;
                author := dict_get fields "author";
                content := dict_get fields "content";
                created := created old; updated := now |} in
  MessageHandlers_put self now method version params query (JObj fields)
  = Some ({| _next_id := _next_id self; _data := <[k := new]> (_data self) |},
          R2 OK (Some (BMessage new)))
  ∧ ("author"%string ∉ fields.*1 → author new = JNull)
  ∧ ("content"%string ∉ fields.*1 → content new = JNull).
Proof.
  intros Hk Hold new. split_and!.
  - unfold MessageHandlers_put. rewrite Hk. simpl.
    unfold Store_put. by rewrite Hold.
  - apply dict_get_absent.
  - apply dict_get_absent.
Qed.

Lemma put_overwrites_with_missing_fields_witness :
  (snd <$> MessageHandlers_put (store_of_size 1) 9 PUT 2 [("id", "0")]%string None content_only)
  = Some (R2 OK (Some (BMessage {| id := 0; author := JNull; content := JStr "z";
                                   created := 7; updated := 9 |}))).
Proof.
  unfold content_only.
  rewrite (proj1 (put_overwrites_with_missing_fields (store_of_size 1) 9 PUT 2
                   [("id", "0")]%string None [("content"%string, JStr "z")] 0
                   (message_n 0) eq_refl eq_refl)).
  reflexivity.
Defined.

(** C9. For an existing record, a PATCH whose body has no author and a
    content other than [null] leaves id, author and created as they were,
    sets content to the supplied value and sets updated to the clock
    reading of the write, which is strictly greater than the prior updated
    exactly when the clock reading is. *)
Theorem patch_content_only
    self now method version params query fields k old :
  params_get params "id" ≫= py_int = Some k →
  _data self !! k = Some old →
  dict_get fields "author" = JNull →
  dict_get fields "content" ≠ JNull →
  let new := {| id := id old;
                author := author old;
                content := dict_get fields "content";
                created := created old; updated := now |} in
  MessageHandlers_patch self now method version params query (JObj fields)
  = Some ({| _next_id := _next_id self; _data := <[k := new]> (_data self) |},
          R2 OK (Some (BMessage new)))
  ∧ (updated old < updated new ↔ updated old < now).
Proof.
  intros Hk Hold Hauthor Hcontent new. split; [|done].
  unfold MessageHandlers_patch. rewrite Hk. simpl.
  unfold Store_patch. rewrite Hold, Hauthor. simpl.
  destruct (dict_get fields "content") eqn:E; try done.
Qed.

Lemma patch_content_only_witness :
  MessageHandlers_patch (store_of_size 1) 9 PATCH 2 [("id", "0")]%string None content_only
  = Some ({| _next_id := 1;
             _data := <[0 := {| id := 0; author := JStr "a"; content := JStr "z";
                                created := 7; updated := 9 |}]>
                        (_data (store_of_size 1)) |},
          R2 OK (Some (BMessage {| id := 0; author := JStr "a"; content := JStr "z";
                                   created := 7; updated := 9 |}))).
Proof.
  refine (proj1 (patch_content_only (store_of_size 1) 9 PATCH 2
                   [("id", "0")]%string None [("content"%string, JStr "z")] 0
                   (message_n 0) _ _ _ _)).
  - reflexivity.
  - reflexivity.
  - reflexivity.
  - discriminate.
Defined.

(** The clock may read the same twice: the record was last written at 7 and
    is patched at 7. *)
Lemma patch_same_clock_reading :
  updated <$> _data (store_of_size 1) !! 0 = Some 7
  ∧ (serve 0 0 0 0 (store_of_size 1) 7 patch_message_0).2
    = Some (_respond OK (Some 2)
              (Some (BMessage {| id := 0; author := JStr "a"; content := JStr "z";
                                 created := 7; updated := 7 |})) None).
Proof. split; vm_compute; reflexivity. Qed.

(** ** The dispatcher *)

Lemma main_router_0 : main_router !! 0 = Some retired_routes.
Proof. reflexivity. Qed.

Lemma main_router_1 : main_router !! 1 = Some message_routes.
Proof. reflexivity. Qed.

Lemma main_deprecation_1 t1 t2 t3 t4 :
  main_deprecation t1 t2 t3 t4 !! 1 = Some (t3, t4 + 60 * 60 * 24 * 30).
Proof. unfold main_deprecation. by rewrite lookup_insert_eq. Qed.

Lemma has_header_respond name st v b (h : Headers) :
  is_Some (h !! name) → has_header name (_respond st v b (Some h)) = true.
Proof.
  intros [x Hx]. unfold has_header, _respond. simpl.
  apply bool_decide_eq_true. do 3 apply list_elem_of_further.
  apply list_elem_of_fmap. exists (name, x). split; [done|].
  by apply elem_of_map_to_list.
Qed.

(** Once a handler has returned, its response carries both headers when the
    version has a deprecation entry. *)
Lemma handled_response_is_annotated
    (router : Router) (deprecation : Deprecation) store now r request_body
    v methods m paths path query h params store' result entry :
  accept_version r = Some v → router !! v = Some methods →
  HTTPMethod_of (command r) = Some m → methods m = Some paths →
  target r = Some (path, query) → find_route paths path = Some (h, params) →
  h store now m v params query request_body = Some (store', result) →
  deprecation !! v = Some entry →
  ∃ resp, dispatch router deprecation store now r request_body = (store', resp)
          ∧ status resp = (pad3 result).1.1
          ∧ has_header "Deprecation" resp = true
          ∧ has_header "Sunset" resp = true.
Proof.
  intros Hv Hrouter Hm Hpaths Htarget Hroute Hrun Hdep.
  unfold dispatch. rewrite Hv, Hrouter, Hm, Hpaths, Htarget, Hroute, Hrun, Hdep.
  destruct (pad3 result) as [[st body] headers], entry as [d s].
  eexists. split_and!; [done|done| |].
  - apply has_header_respond. rewrite lookup_insert_ne by done.
    rewrite lookup_insert_eq. by eexists.
  - apply has_header_respond. rewrite lookup_insert_eq. by eexists.
Qed.

(** C5. Version 1 has a deprecation entry, yet the response to a request
    under version 1 whose path matches no route is a 404 that carries
    neither a Deprecation nor a Sunset header. *)
Theorem route_not_found_lacks_deprecation t1 t2 t3 t4 store now :
  is_Some (main_deprecation t1 t2 t3 t4 !! 1)
  ∧ ∃ resp,
      serve t1 t2 t3 t4 store now (request "GET" "/nope" 1) = (store, Some resp)
      ∧ status resp = NOT_FOUND
      ∧ has_header "Deprecation" resp = false
      ∧ has_header "Sunset" resp = false.
Proof.
  split; [rewrite main_deprecation_1; by eexists|].
  eexists. split_and!; reflexivity.
Qed.

(** A method of [HTTPMethod] without routes under the version gets 405. *)
Lemma unrouted_method_not_allowed
    (router : Router) (deprecation : Deprecation) store now r request_body
    v methods m :
  accept_version r = Some v → router !! v = Some methods →
  HTTPMethod_of (command r) = Some m → methods m = None →
  ∃ resp, dispatch router deprecation store now r request_body = (store, resp)
          ∧ status resp = METHOD_NOT_ALLOWED.
Proof.
  intros Hv Hrouter Hm Hnone. unfold dispatch.
  rewrite Hv, Hrouter, Hm, Hnone. by eexists.
Qed.

(** C6. Under the negotiated version 1, a request whose method is not a
    member of [HTTPMethod] is answered with 500 Internal Server Error, not
    with 405. *)
Theorem unknown_method_internal_error t1 t2 t3 t4 store now path :
  HTTPMethod_of "FOO" = None
  ∧ is_Some (main_router !! 1)
  ∧ ∃ resp,
      serve t1 t2 t3 t4 store now (request "FOO" path 1) = (store, Some resp)
      ∧ status resp = INTERNAL_SERVER_ERROR
      ∧ status_value (status resp) = 500.
Proof.
  split_and!; [done | by eexists |]. eexists. split_and!; reflexivity.
Qed.

Lemma HTTPMethod_of_routed c :
  c ∈ routed_commands →
  ∃ m, HTTPMethod_of c = Some m ∧ retired_routes m = Some [(RxAny, gone)].
Proof.
  unfold routed_commands. rewrite !elem_of_cons, elem_of_nil.
  intros [->|[->|[->|[->|[->|[]]]]]]; eexists; split; reflexivity.
Qed.

Lemma retired_routes_inv m paths :
  retired_routes m = Some paths → paths = [(RxAny, gone)].
Proof. destruct m; simpl; congruence. Qed.

(** C7. Under version 0 no request is answered with 404, and each of the
    five routed methods GET, POST, PUT, PATCH and DELETE, on any path and
    with a body that is absent or decodes to a value other than [null], is
    answered with 410 Gone.  A path is what the router receives: the
    request target split by [urlsplit], which holds no newline. *)
Theorem version_0_is_gone t1 t2 t3 t4 store now r path query :
  accept_version r = Some 0 →
  target r = Some (path, query) →
  no_newline path = true →
  ∃ resp,
    serve t1 t2 t3 t4 store now (Parsed r) = (store, Some resp)
    ∧ status resp ≠ NOT_FOUND
    ∧ (command r ∈ routed_commands → body_present_or_absent (body_in r) →
       status resp = GONE).
Proof.
  intros Hv Htarget Hpath.
  assert (∀ body, ∃ resp,
    dispatch main_router (main_deprecation t1 t2 t3 t4) store now r body
      = (store, resp)
    ∧ status resp ≠ NOT_FOUND
    ∧ (command r ∈ routed_commands → status resp = GONE)) as Hdispatch.
  { intros body. unfold dispatch. rewrite Hv, main_router_0, Htarget.
    destruct (HTTPMethod_of (command r)) as [m|] eqn:Hm.
    - destruct (retired_routes m) as [paths|] eqn:Hroutes.
      + apply retired_routes_inv in Hroutes as ->. simpl. rewrite Hpath.
        simpl. eexists. split_and!; done.
      + eexists. split_and!; [done|done|].
        intros (m' & Hm' & Hr)%HTTPMethod_of_routed. congruence.
    - eexists. split_and!; [done|done|].
      intros (m' & Hm' & Hr)%HTTPMethod_of_routed. congruence. }
  unfold serve, handle_one_request.
  destruct (body_in r) as [| | |j] eqn:Hbody.
  - destruct (Hdispatch JNull) as (resp & -> & ? & ?). eauto.
  - eexists. split_and!; [done|done|]. by intros _ [].
  - eexists. split_and!; [done|done|]. by intros _ [].
  - destruct (decide (j = JNull)) as [->|Hj].
    { eexists. split_and!; [done|done|]. by intros _ []. }
    destruct (Hdispatch j) as (resp & Hresp & ? & ?).
    exists resp. split_and!; [|done|auto]. destruct j; by rewrite ?Hresp.
Qed.

Lemma version_0_is_gone_witness :
  ∃ resp,
    serve 0 0 0 0 Store_init 0 (request "DELETE" "/message/5" 0)
    = (Store_init, Some resp)
    ∧ status resp = GONE.
Proof.
  destruct (version_0_is_gone 0 0 0 0 Store_init 0
              {| command := "DELETE"; body_in := NoContent;
                 accept_version := Some 0;
                 target := Some ("/message/5"%string, None) |}
              "/message/5" None eq_refl eq_refl eq_refl)
    as (resp & Hserve & _ & Hgone).
  exists resp. split; [exact Hserve|].
  apply Hgone; [|exact I]. simpl. apply (bool_decide_unpack _). vm_compute. exact I.
Defined.

(** HEAD has no routes under version 0. *)
Lemma version_0_head_not_allowed :
  status <$> (serve 0 0 0 0 Store_init 0 (request "HEAD" "/" 0)).2
  = Some METHOD_NOT_ALLOWED.
Proof. reflexivity. Qed.

(** C2. With thirteen records and page size 11, twelve records follow
    the current one, but the after-window holds ten of them, not eleven. *)
Theorem after_window_is_ten_wide :
  let store := store_of_size 13 in
  ∃ before current after,
    Store_list store 0 11 = (before, Some current, after)
    ∧ length (drop 1 (sorted_values store)) = 12%nat
    ∧ length after = 10%nat.
Proof. do 3 eexists. split_and!; vm_compute; reflexivity. Qed.

(** * Further properties *)

(** ** The store as a keyed collection *)

Lemma Store_eta (self : Store) :
  {| _next_id := _next_id self; _data := _data self |} = self.
Proof. by destruct self. Qed.

Lemma Store_wf_counter_free self :
  Store_wf self → _data self !! _next_id self = None.
Proof.
  intros [_ Hwf]. apply eq_None_not_Some. intros [m Hm].
  destruct (Hwf _ _ Hm) as [_ ?]. lia.
Qed.

(** X1. Whatever calls of create, put, patch and delete are made on a fresh
    store, every message is kept under its own id and every id in use lies
    between 0 and the counter. *)
Theorem reachable_store_wf (ops : list Op) : Store_wf (run Store_init ops).1.
Proof. apply run_wf, Store_init_wf. Qed.

(** X2. In a well-formed store, create takes the counter as the new id, that
    id was free, the new message can be fetched under it, every other id
    reads as before, and the store has one record more. *)
Theorem create_adds_fresh_record self now a c :
  Store_wf self →
  let self' := (Store_create self now a c).1 in
  let m := (Store_create self now a c).2 in
  id m = _next_id self
  ∧ Store_get self (id m) = None
  ∧ Store_get self' (id m) = Some m
  ∧ (∀ k, k ≠ id m → Store_get self' k = Store_get self k)
  ∧ size (_data self') = S (size (_data self)).
Proof.
  intros Hwf. pose proof (Store_wf_counter_free _ Hwf) as Hfree.
  unfold Store_get. simpl. split_and!; [done|done| | |].
  - apply lookup_insert_eq.
  - intros k Hk. by apply lookup_insert_ne.
  - by apply map_size_insert_None.
Qed.

Lemma create_adds_fresh_record_witness :
  Store_wf (store_of_size 2)
  ∧ Store_get (Store_create (store_of_size 2) 9 JNull JNull).1 2
    = Some (Store_create (store_of_size 2) 9 JNull JNull).2.
Proof.
  assert (Store_wf (store_of_size 2)) as Hwf.
  { split; [done|]. apply (bool_decide_unpack _). vm_compute. exact I. }
  split; [exact Hwf|].
  exact (proj1 (proj2 (proj2
    (create_adds_fresh_record (store_of_size 2) 9 JNull JNull Hwf)))).
Defined.

(** X3. delete reports a removal exactly when the id was present; afterwards
    the id reads as absent, the other ids read as before, the counter is
    unchanged, and a second delete of the same id removes nothing. *)
Theorem delete_removes_once self k :
  let self' := (Store_delete self k).1 in
  ((Store_delete self k).2 = true ↔ is_Some (Store_get self k))
  ∧ Store_get self' k = None
  ∧ (∀ j, j ≠ k → Store_get self' j = Store_get self j)
  ∧ _next_id self' = _next_id self
  ∧ Store_delete self' k = (self', false).
Proof.
  unfold Store_get, Store_delete. simpl. split_and!.
  - apply bool_decide_eq_true.
  - apply lookup_delete_eq.
  - intros j Hj. by apply lookup_delete_ne.
  - done.
  - rewrite delete_delete_eq. f_equal.
    apply bool_decide_eq_false. rewrite lookup_delete_eq. by intros [? [=]].
Qed.

(** An id below the counter that is absent stays absent. *)
Lemma run_absent_stays_absent ops : ∀ self k,
  Store_wf self → k < _next_id self → _data self !! k = None →
  _data (run self ops).1 !! k = None.
Proof.
  induction ops as [|op ops IH]; intros self k Hwf Hk Hnone; [done|].
  destruct op as [now a c|now j a c|now j a c|j]; simpl.
  - pose proof (IH (Store_create self now a c).1 k
                  (Store_create_wf self now a c Hwf)) as IH'.
    simpl in IH'. destruct (run _ ops) as [s ids]. simpl in *.
    apply IH'; [lia|]. rewrite lookup_insert_ne by lia. done.
  - apply IH; [by apply Store_put_wf | by rewrite Store_put_next_id |].
    unfold Store_put. destruct (_data self !! j) eqn:Hj; [|done]. simpl.
    rewrite lookup_insert_ne; [done|congruence].
  - apply IH; [by apply Store_patch_wf | by rewrite Store_patch_next_id |].
    unfold Store_patch. destruct (_data self !! j) eqn:Hj; [|done]. simpl.
    rewrite lookup_insert_ne; [done|congruence].
  - apply IH; [by apply (Store_delete_wf self j) | done |]. simpl.
    destruct (decide (j = k)) as [->|]; [apply lookup_delete_eq|].
    by rewrite lookup_delete_ne.
Qed.

(** X4. Once a record of a well-formed store is deleted, no sequence of
    later calls makes its id readable again. *)
Theorem deleted_id_never_returns self k ops :
  Store_wf self → is_Some (Store_get self k) →
  Store_get (run (Store_delete self k).1 ops).1 k = None.
Proof.
  intros Hwf [m Hm]. unfold Store_get.
  apply run_absent_stays_absent.
  - by apply (Store_delete_wf self k).
  - simpl. destruct Hwf as [_ Hwf]. destruct (Hwf _ _ Hm). lia.
  - simpl. apply lookup_delete_eq.
Qed.

Lemma store_of_size_wf n : Store_wf (store_of_size n).
Proof. apply run_wf, Store_init_wf. Qed.

Lemma deleted_id_never_returns_witness :
  Store_get
    (run (Store_delete (store_of_size 2) 1).1
         [OpCreate 8 JNull JNull; OpPut 9 1 JNull JNull]).1 1 = None.
Proof.
  apply deleted_id_never_returns.
  - split; [done|]. apply (bool_decide_unpack _). vm_compute. exact I.
  - vm_compute. eexists. reflexivity.
Defined.

(** X5. A record that is still in a well-formed store after any sequence of
    calls has the id and the created stamp it had before. *)
Theorem id_and_created_are_immutable ops : ∀ self k m m',
  Store_wf self →
  Store_get self k = Some m →
  Store_get (run self ops).1 k = Some m' →
  id m' = id m ∧ created m' = created m.
Proof.
  unfold Store_get.
  induction ops as [|op ops IH]; intros self k m m' Hwf Hm Hm'.
  { simpl in Hm'. by simplify_eq. }
  assert (k < _next_id self) as Hk.
  { destruct Hwf as [_ Hwf]. destruct (Hwf _ _ Hm). lia. }
  destruct op as [now a c|now j a c|now j a c|j]; simpl in Hm'.
  - pose proof (IH (Store_create self now a c).1 k m m'
                  (Store_create_wf self now a c Hwf)) as IH'.
    simpl in IH'. destruct (run _ ops) as [s ids]. simpl in *.
    apply IH'; [|done]. rewrite lookup_insert_ne by lia. done.
  - pose proof (Store_put_wf self now j a c Hwf) as Hwf'.
    unfold Store_put in *. destruct (_data self !! j) as [old|] eqn:Hj.
    + destruct (decide (j = k)) as [->|Hne].
      * simplify_eq.
        by apply (IH _ k _ m' Hwf' (lookup_insert_eq _ _ _)) in Hm'.
      * apply (IH _ k m m' Hwf'); [|done]. simpl. by rewrite lookup_insert_ne.
    + by apply (IH self k m m').
  - pose proof (Store_patch_wf self now j a c Hwf) as Hwf'.
    unfold Store_patch in *. destruct (_data self !! j) as [old|] eqn:Hj.
    + destruct (decide (j = k)) as [->|Hne].
      * simplify_eq.
        by apply (IH _ k _ m' Hwf' (lookup_insert_eq _ _ _)) in Hm'.
      * apply (IH _ k m m' Hwf'); [|done]. simpl. by rewrite lookup_insert_ne.
    + by apply (IH self k m m').
  - destruct (decide (j = k)) as [->|Hne].
    + rewrite run_absent_stays_absent in Hm'; [done| | |].
      * by apply (Store_delete_wf self k).
      * done.
      * apply lookup_delete_eq.
    + apply (IH _ k m m' (Store_delete_wf self j Hwf)); [|done]. simpl.
      by rewrite lookup_delete_ne.
Qed.

Lemma id_and_created_are_immutable_witness :
  Store_wf (store_of_size 2)
  ∧ ∃ m', Store_get (run (store_of_size 2)
                       [OpPatch 9 1 JNull (JStr "z"); OpDelete 0;
                        OpPut 11 1 JNull JNull]).1 1 = Some m'
          ∧ id m' = 1 ∧ created m' = 7.
Proof.
  assert (Store_wf (store_of_size 2)) as Hwf by apply store_of_size_wf.
  split; [exact Hwf|]. eexists. split; [reflexivity|].
  exact (id_and_created_are_immutable
           [OpPatch 9 1 JNull (JStr "z"); OpDelete 0; OpPut 11 1 JNull JNull]
           (store_of_size 2) 1 (message_n 1) _ Hwf eq_refl eq_refl).
Defined.

(** ** Writes through the handlers *)

(** X7. A patch whose author and content are both other than [None] does
    exactly what a put with the same arguments does. *)
Theorem patch_with_both_fields_is_put self now k a c :
  a ≠ JNull → c ≠ JNull →
  Store_patch self now k a c = Store_put self now k a c.
Proof.
  intros Ha Hc. unfold Store_patch, Store_put.
  destruct (_data self !! k) as [old|]; [|done].
  by destruct a, c.
Qed.

Lemma patch_with_both_fields_is_put_witness :
  Store_patch (store_of_size 1) 9 0 (JStr "b") (JNum 3)
  = Store_put (store_of_size 1) 9 0 (JStr "b") (JNum 3).
Proof. apply patch_with_both_fields_is_put; discriminate. Defined.

(** X8. A patch whose body has neither an author nor a content (or has them
    as [null]) keeps every field of the record and sets [updated] to the
    clock reading. *)
Theorem patch_without_fields_only_refreshes_updated
    self now method version params query fields k old :
  params_get params "id" ≫= py_int = Some k →
  Store_get self k = Some old →
  dict_get fields "author" = JNull →
  dict_get fields "content" = JNull →
  let new := {| id := id old; author := author old; content := content old;
                created := created old; updated := now |} in
  MessageHandlers_patch self now method version params query (JObj fields)
  = Some ({| _next_id := _next_id self; _data := <[k := new]> (_data self) |},
          R2 OK (Some (BMessage new))).
Proof.
  intros Hk Hold Hauthor Hcontent new. unfold Store_get in Hold.
  unfold MessageHandlers_patch. rewrite Hk. simpl.
  unfold Store_patch. by rewrite Hold, Hauthor, Hcontent.
Qed.

Lemma patch_without_fields_only_refreshes_updated_witness :
  snd <$> MessageHandlers_patch (store_of_size 1) 9 PATCH 2 [("id", "0")]%string
            None (JObj [])
  = Some (R2 OK (Some (BMessage {| id := 0; author := JStr "a"; content := JStr "x";
                                   created := 7; updated := 9 |}))).
Proof.
  rewrite (patch_without_fields_only_refreshes_updated (store_of_size 1) 9 PATCH 2
             [("id", "0")]%string None [] 0 (message_n 0)
             eq_refl eq_refl eq_refl eq_refl).
  reflexivity.
Defined.



(** X10. The create handler, given a JSON object, answers 201 with a message
    whose id is the counter, whose fields are the body's author and content
    and whose two stamps are the clock reading; the counter goes up by one,
    and the get handler then returns that same message for that id. *)
Theorem created_message_can_be_fetched
    self now method version params query fields :
  ∃ self' m,
    MessageHandlers_create self now method version params query (JObj fields)
    = Some (self', R2 CREATED (Some (BMessage m)))
    ∧ m = {| id := _next_id self;
             author := dict_get fields "author";
             content := dict_get fields "content";
             created := now; updated := now |}
    ∧ _next_id self' = _next_id self + 1
    ∧ ∀ now' method' version' params' query' body',
        params_get params' "id" ≫= py_int = Some (id m) →
        MessageHandlers_get self' now' method' version' params' query' body'
        = Some (self', R2 OK (Some (BMessage m))).
Proof.
  eexists _, _. split_and!; [reflexivity|reflexivity|reflexivity|].
  intros now' method' version' params' query' body' Hid.
  unfold MessageHandlers_get. rewrite Hid. simpl.
  unfold Store_get. simpl.
  rewrite lookup_insert_eq. done.
Qed.

(** X11. Putting a message's own [to_dict()] back under its id changes
    nothing but [updated]: the extra keys of the dict are ignored. *)
Theorem put_of_own_dict_keeps_fields self now method version params query k m :
  params_get params "id" ≫= py_int = Some k →
  Store_get self k = Some m →
  let m' := {| id := id m; author := author m; content := content m;
               created := created m; updated := now |} in
  MessageHandlers_put self now method version params query (Message_to_dict m)
  = Some ({| _next_id := _next_id self; _data := <[k := m']> (_data self) |},
          R2 OK (Some (BMessage m'))).
Proof.
  intros Hk Hm m'. unfold Store_get in Hm.
  unfold MessageHandlers_put. rewrite Hk. simpl.
  unfold Store_put. by rewrite Hm.
Qed.

Lemma put_of_own_dict_keeps_fields_witness :
  snd <$> MessageHandlers_put (store_of_size 1) 9 PUT 1 [("id", "0")]%string None
            (Message_to_dict (message_n 0))
  = Some (R2 OK (Some (BMessage {| id := 0; author := JStr "a"; content := JStr "x";
                                   created := 7; updated := 9 |}))).
Proof.
  rewrite (put_of_own_dict_keeps_fields (store_of_size 1) 9 PUT 1
             [("id", "0")]%string None 0 (message_n 0) eq_refl eq_refl).
  reflexivity.
Defined.

(** ** Timestamps *)

Lemma stamped_until_mono t t' self :
  t ≤ t' → stamped_until t self → stamped_until t' self.
Proof.
  intros Ht Hst. eapply map_Forall_impl; [exact Hst|].
  intros j m ?. simpl in *. lia.
Qed.

Lemma run_stamped ops : ∀ self t,
  stamped_until t self →
  Sorted Z.le (omap op_clock ops) →
  Forall (λ x, t ≤ x) (omap op_clock ops) →
  ∃ t', stamped_until t' (run self ops).1.
Proof.
  induction ops as [|op ops IH]; intros self t Hst Hsorted Hfrom; [by exists t|].
  destruct op as [now a c|now j a c|now j a c|j]; simpl in *.
  - apply Sorted_StronglySorted, StronglySorted_inv in Hsorted as [Hs Hnow];
      [|apply _].
    apply Forall_cons in Hfrom as [Ht _].
    destruct (IH (Store_create self now a c).1 now) as [t' Ht'].
    + apply map_Forall_insert_2; [simpl; lia|].
      by apply (stamped_until_mono t).
    + by apply StronglySorted_Sorted.
    + done.
    + exists t'. simpl in Ht'. by destruct (run _ ops).
  - apply Sorted_StronglySorted, StronglySorted_inv in Hsorted as [Hs Hnow];
      [|apply _].
    apply Forall_cons in Hfrom as [Ht _].
    apply (IH _ now); [|by apply StronglySorted_Sorted|done].
    unfold Store_put. destruct (_data self !! j) as [old|] eqn:Hj.
    + apply map_Forall_insert_2; [|by apply (stamped_until_mono t)].
      pose proof (Hst _ _ Hj). simpl in *. lia.
    + by apply (stamped_until_mono t).
  - apply Sorted_StronglySorted, StronglySorted_inv in Hsorted as [Hs Hnow];
      [|apply _].
    apply Forall_cons in Hfrom as [Ht _].
    apply (IH _ now); [|by apply StronglySorted_Sorted|done].
    unfold Store_patch. destruct (_data self !! j) as [old|] eqn:Hj.
    + apply map_Forall_insert_2; [|by apply (stamped_until_mono t)].
      pose proof (Hst _ _ Hj). simpl in *. lia.
    + by apply (stamped_until_mono t).
  - apply (IH _ t); [|done|done]. by apply map_Forall_delete.
Qed.

(** X6. If the clock readings taken by a sequence of calls on a fresh store
    never decrease, every record of the resulting store has
    [updated >= created]. *)
Theorem updated_not_before_created ops k m :
  Sorted Z.le (omap op_clock ops) →
  Store_get (run Store_init ops).1 k = Some m →
  created m ≤ updated m.
Proof.
  intros Hsorted Hm.
  destruct (omap op_clock ops) as [|t0 ts] eqn:Hclocks.
  - destruct (run_stamped ops Store_init 0) as [t' Ht'].
    + apply map_Forall_empty.
    + by rewrite Hclocks.
    + by rewrite Hclocks.
    + pose proof (Ht' _ _ Hm). simpl in *. lia.
  - destruct (run_stamped ops Store_init t0) as [t' Ht'].
    + apply map_Forall_empty.
    + by rewrite Hclocks.
    + rewrite Hclocks.
      apply Sorted_StronglySorted, StronglySorted_inv in Hsorted as [_ Hall];
        [|apply _].
      constructor; [lia|done].
    + pose proof (Ht' _ _ Hm). simpl in *. lia.
Qed.

Lemma updated_not_before_created_witness :
  Sorted Z.le (omap op_clock [OpCreate 7 JNull JNull; OpDelete 3; OpPatch 9 0 JNull JNull])
  ∧ ∃ m, Store_get (run Store_init
                      [OpCreate 7 JNull JNull; OpDelete 3; OpPatch 9 0 JNull JNull]).1 0
         = Some m ∧ created m ≤ updated m.
Proof.
  assert (Sorted Z.le (omap op_clock
            [OpCreate 7 JNull JNull; OpDelete 3; OpPatch 9 0 JNull JNull])) as Hs.
  { simpl. repeat constructor. lia. }
  split; [exact Hs|]. eexists. split; [reflexivity|].
  exact (updated_not_before_created _ 0 _ Hs eq_refl).
Defined.

(** ** The windows of [Store.list] *)

(** X12. When [Store.list] finds a current record, the snapshot reads
    [pre ++ before ++ current :: after ++ post]: [before] holds the [limit]
    records just ahead of the current one (all of them if fewer), [after]
    the ten records just behind it (all of them if fewer), every record
    ahead of the current one has an id below the cursor, and the current
    one has not. *)
Theorem Store_list_windows self start (limit : nat) before c after :
  Store_list self start (Z.of_nat limit) = (before, Some c, after) →
  ∃ pre post,
    sorted_values self = pre ++ before ++ c :: after ++ post
    ∧ length before = (limit `min` length (pre ++ before))%nat
    ∧ length after = (10 `min` length (after ++ post))%nat
    ∧ Forall (λ m, id m < start) (pre ++ before)
    ∧ start ≤ id c.
Proof.
  rewrite Store_list_spec. cbv zeta.
  destruct (list_find _ _) as [[i c']|] eqn:Hfind; [|done].
  intros [= <- <- <-].
  apply list_find_Some in Hfind as (Hi & Hc & Hbefore).
  pose proof (lookup_lt_Some _ _ _ Hi) as Hlt.
  set (data := sorted_values self) in *.
  exists (take (i - limit) data), (drop (S i + 10) data).
  assert (take (i - limit) data ++ take (i - (i - limit)) (drop (i - limit) data)
          = take i data) as Hpre.
  { rewrite take_take_drop. f_equal. lia. }
  split_and!.
  - rewrite app_assoc, Hpre.
    rewrite <- (drop_drop data 10 (S i)), take_drop, <- (drop_S _ _ _ Hi).
    by rewrite take_drop.
  - rewrite Hpre, !length_take, length_drop. lia.
  - rewrite <- (drop_drop data 10 (S i)), take_drop, length_take. done.
  - rewrite Hpre. apply Forall_forall.
    intros m (j & Hj & Hji)%elem_of_take.
    pose proof (Hbefore j m Hj Hji). simpl in *. lia.
  - done.
Qed.

Lemma Store_list_windows_witness :
  Store_list (store_of_size 12) 1 (Z.of_nat 10)
  = ([message_n 0], Some (message_n 1), message_n <$> seqZ 2 10)
  ∧ ∃ pre post,
      sorted_values (store_of_size 12)
      = pre ++ [message_n 0] ++ message_n 1 :: (message_n <$> seqZ 2 10) ++ post.
Proof.
  assert (Store_list (store_of_size 12) 1 (Z.of_nat 10)
          = ([message_n 0], Some (message_n 1), message_n <$> seqZ 2 10)) as H
    by (vm_compute; reflexivity).
  split; [exact H|].
  destruct (Store_list_windows _ _ _ _ _ _ H) as (pre & post & Hsplit & _).
  by exists pre, post.
Defined.

(** ** Pages over any store *)

Lemma StronglySorted_lookup {A} (R : relation A) (l : list A) :
  StronglySorted R l →
  ∀ (i j : nat) a b, l !! i = Some a → l !! j = Some b → (i < j)%nat → R a b.
Proof.
  induction 1 as [|x l Hl IH Hx]; intros i j a b Hi Hj Hlt; [done|].
  destruct j as [|j]; [lia|]. destruct i as [|i]; simpl in *.
  - simplify_eq. eapply Forall_forall; [exact Hx|].
    by eapply list_elem_of_lookup_2.
  - apply (IH i j); [done|done|lia].
Qed.

(** The snapshot is ordered by id. *)
Lemma sorted_values_ordered self (i j : nat) a b :
  sorted_values self !! i = Some a → sorted_values self !! j = Some b →
  (i ≤ j)%nat → id a ≤ id b.
Proof.
  intros Hi Hj Hle. destruct (decide (i = j)) as [->|Hne].
  { simplify_eq. lia. }
  eapply (StronglySorted_lookup id_le); [|exact Hi|exact Hj|lia].
  apply Sorted_StronglySorted; [apply _|]. apply (Sorted_merge_sort id_le).
Qed.

Lemma sorted_values_size self : length (sorted_values self) = size (_data self).
Proof.
  unfold sorted_values.
  by rewrite (Permutation_length (merge_sort_Permutation _ _)),
    length_fmap, length_map_to_list.
Qed.

(** In a well-formed store no two records of the snapshot share an id. *)
Lemma sorted_values_ids_NoDup self :
  Store_wf self → NoDup (id <$> sorted_values self).
Proof.
  intros [_ Hwf]. unfold sorted_values. rewrite merge_sort_Permutation.
  replace (id <$> (map_to_list (_data self)).*2)
    with ((map_to_list (_data self)).*1); [apply NoDup_fst_map_to_list|].
  rewrite <- list_fmap_compose. apply list_fmap_ext. intros i [k m] Hi. simpl.
  symmetry. apply (Hwf k m), elem_of_map_to_list, list_elem_of_lookup. eauto.
Qed.

Lemma sorted_values_strict self (i j : nat) a b :
  Store_wf self →
  sorted_values self !! i = Some a → sorted_values self !! j = Some b →
  (i < j)%nat → id a < id b.
Proof.
  intros Hwf Hi Hj Hlt.
  pose proof (sorted_values_ordered self i j a b Hi Hj) as Hle.
  destruct (decide (id a = id b)) as [Heq|]; [|lia].
  pose proof (NoDup_lookup _ i j (id a) (sorted_values_ids_NoDup self Hwf)) as Hinj.
  rewrite !list_lookup_fmap, Hi, Hj in Hinj. simpl in Hinj.
  rewrite Heq in Hinj. specialize (Hinj eq_refl eq_refl). lia.
Qed.

(** X13. A page is empty exactly when every stored record has an id below
    the cursor; otherwise its first record is a stored record with the
    least id that is not below the cursor. *)
Theorem page_starts_at_least_id_from_cursor self start :
  match page_data (page self start) with
  | [] => ∀ k m, Store_get self k = Some m → id m < start
  | c :: _ =>
      (∃ k, Store_get self k = Some c)
      ∧ start ≤ id c
      ∧ ∀ k m, Store_get self k = Some m → start ≤ id m → id c ≤ id m
  end.
Proof.
  unfold Store_get. rewrite page_spec. cbv zeta.
  destruct (list_find _ _) as [[i c]|] eqn:Hfind.
  - apply list_find_Some in Hfind as (Hi & Hc & Hbefore). simpl.
    rewrite (drop_S _ _ _ Hi). simpl. split_and!; [|done|].
    + apply elem_of_sorted_values. by eapply list_elem_of_lookup_2.
    + intros k m Hm Hstart.
      assert (m ∈ sorted_values self) as [j Hj]%list_elem_of_lookup
        by (apply elem_of_sorted_values; eauto).
      destruct (decide (j < i)%nat) as [Hlt|Hge].
      { by destruct (Hbefore j m Hj Hlt). }
      apply (sorted_values_ordered self i j); [done|done|lia].
  - simpl. intros k m Hm.
    apply list_find_None in Hfind.
    assert (m ∈ sorted_values self) as Hin
      by (apply elem_of_sorted_values; eauto).
    pose proof (proj1 (Forall_forall _ _) Hfind m Hin). simpl in *. lia.
Qed.

(** X14. The records of a page are stored records with ids not below the
    cursor, in ascending order of id; and every stored record with an id
    not below the cursor is either on the page or has an id not below the
    page's next cursor. *)
Theorem page_is_a_window_of_the_store self start :
  let p := page self start in
  Sorted id_le (page_data p)
  ∧ (∀ m, m ∈ page_data p → (∃ k, Store_get self k = Some m) ∧ start ≤ id m)
  ∧ (∀ k m, Store_get self k = Some m → start ≤ id m →
       m ∈ page_data p ∨ ∃ n, page_next p = Some n ∧ n ≤ id m).
Proof.
  unfold Store_get. rewrite page_spec. cbv zeta.
  destruct (list_find _ _) as [[i c]|] eqn:Hfind; simpl.
  - apply list_find_Some in Hfind as (Hi & Hc & Hbefore).
    set (data := sorted_values self) in *.
    split_and!.
    + apply StronglySorted_Sorted.
      assert (StronglySorted id_le data) as Hs.
      { apply Sorted_StronglySorted; [apply _|]. apply (Sorted_merge_sort id_le). }
      rewrite <- (take_drop i data) in Hs. apply StronglySorted_app_1_r in Hs.
      rewrite <- (take_drop 10 (drop i data)) in Hs.
      by apply StronglySorted_app_1_l in Hs.
    + intros m (j & Hj & Hlt)%elem_of_take. rewrite lookup_drop in Hj. split.
      * apply elem_of_sorted_values. by eapply list_elem_of_lookup_2.
      * pose proof (sorted_values_ordered self i (i + j) c m Hi Hj). lia.
    + intros k m Hm Hstart.
      assert (m ∈ data) as [j Hj]%list_elem_of_lookup
        by (apply elem_of_sorted_values; eauto).
      destruct (decide (j < i)%nat) as [Hlt|Hge].
      { by destruct (Hbefore j m Hj Hlt). }
      destruct (decide (j < i + 10)%nat) as [Hin|Hout].
      * left. apply elem_of_take. exists (j - i)%nat. split; [|lia].
        rewrite lookup_drop. by replace (i + (j - i))%nat with j by lia.
      * right. destruct (data !! (i + 10)%nat) as [r|] eqn:Hr.
        -- exists (id r). split; [done|].
           apply (sorted_values_ordered self (i + 10) j); [done|done|lia].
        -- apply lookup_ge_None in Hr. apply lookup_lt_Some in Hj. lia.
  - split_and!; [constructor|by intros m ?%elem_of_nil|].
    intros k m Hm Hstart. apply list_find_None in Hfind.
    assert (m ∈ sorted_values self) as Hin
      by (apply elem_of_sorted_values; eauto).
    by destruct (proj1 (Forall_forall _ _) Hfind m Hin).
Qed.

Section cursors.
Variable self : Store.
Hypothesis Hwf : Store_wf self.

(** A cursor taken from a record of the snapshot lands on that record. *)
Lemma find_own_cursor (j : nat) m :
  sorted_values self !! j = Some m →
  list_find (λ value, id m ≤ id value) (sorted_values self) = Some (j, m).
Proof.
  intros Hj. apply list_find_Some. split_and!; [done|lia|].
  intros j' m' Hj' Hlt.
  pose proof (sorted_values_strict self j' j m' m Hwf Hj' Hj Hlt). lia.
Qed.

Lemma paginate_at fuel : ∀ start (i : nat) c,
  list_find (λ value, start ≤ id value) (sorted_values self) = Some (i, c) →
  (length (sorted_values self) - i ≤ 10 * fuel)%nat →
  paginate fuel self start = Some (drop i (sorted_values self)).
Proof.
  induction fuel as [|fuel IH]; intros start i c Hfind Hfuel.
  { apply list_find_Some in Hfind as (Hi%lookup_lt_Some & _). lia. }
  simpl. rewrite page_spec. cbv zeta. rewrite Hfind. simpl.
  destruct (sorted_values self !! (i + 10)%nat) as [r|] eqn:Hr; simpl.
  - rewrite (IH (id r) (i + 10)%nat r) by (by apply find_own_cursor || lia).
    simpl. f_equal. rewrite <- (drop_drop _ 10 i). apply take_drop.
  - f_equal. apply take_ge. apply lookup_ge_None in Hr.
    rewrite length_drop. lia.
Qed.
End cursors.

Lemma filter_from_first {A} (P : A → Prop) `{∀ x, Decision (P x)} (l : list A) i x :
  list_find P l = Some (i, x) →
  (∀ j y, l !! j = Some y → (i ≤ j)%nat → P y) →
  filter P l = drop i l.
Proof.
  revert i. induction l as [|y l IH]; intros i Hfind Hafter; [done|].
  apply list_find_Some in Hfind as (Hi & Hx & Hbefore).
  destruct i as [|i]; simpl in *.
  - simplify_eq. rewrite filter_cons_True by done. f_equal.
    clear IH Hbefore. induction l as [|z l IHl]; [done|].
    rewrite filter_cons_True by (apply (Hafter 1%nat); [done|lia]).
    f_equal. apply IHl. intros [|j] y' Hj Hle.
    + simpl in Hj. by simplify_eq.
    + apply (Hafter (S (S j))); [done|lia].
  - rewrite filter_cons_False by (apply (Hbefore 0%nat); [done|lia]).
    apply IH.
    + apply list_find_Some. split_and!; [done|done|].
      intros j z Hj Hlt. apply (Hbefore (S j)); [done|lia].
    + intros j z Hj Hle. apply (Hafter (S j)); [done|lia].
Qed.

Lemma filter_none {A} (P : A → Prop) `{∀ x, Decision (P x)} (l : list A) :
  Forall (λ x, ¬ P x) l → filter P l = [].
Proof.
  induction 1 as [|y l Hy _ IH]; [done|]. by rewrite filter_cons_False.
Qed.

Lemma paginate_filter self start fuel :
  Store_wf self →
  (size (_data self) < 10 * fuel)%nat →
  paginate fuel self start
  = Some (filter (λ m, start ≤ id m) (sorted_values self)).
Proof.
  intros Hwf Hfuel. rewrite <- sorted_values_size in Hfuel.
  destruct (list_find (λ value, start ≤ id value) (sorted_values self))
    as [[i c]|] eqn:Hfind.
  - rewrite (paginate_at self Hwf fuel start i c Hfind) by lia. f_equal.
    symmetry. apply (filter_from_first _ _ i c Hfind).
    intros j y Hj Hle.
    apply list_find_Some in Hfind as (Hi & Hc & _).
    pose proof (sorted_values_ordered self i j c y Hi Hj Hle). lia.
  - destruct fuel as [|fuel]; [lia|]. simpl. rewrite page_spec. cbv zeta.
    rewrite Hfind. simpl. f_equal. symmetry.
    apply filter_none. by apply list_find_None in Hfind.
Qed.

Lemma StronglySorted_filter {A} (R : relation A) (P : A → Prop)
    `{∀ x, Decision (P x)} (l : list A) :
  StronglySorted R l → StronglySorted R (filter P l).
Proof.
  induction 1 as [|x l Hl IH Hx]; [constructor|].
  rewrite filter_cons. case_decide; [|done]. constructor; [done|].
  apply Forall_forall. intros y [_ Hy]%list_elem_of_filter.
  by eapply Forall_forall.
Qed.

Lemma sorted_values_StronglySorted_lt self :
  Store_wf self → StronglySorted (λ a b, id a < id b) (sorted_values self).
Proof.
  intros Hwf.
  assert (∀ l : list Message,
    (∀ (i j : nat) a b, l !! i = Some a → l !! j = Some b → (i < j)%nat →
       id a < id b) →
    StronglySorted (λ a b, id a < id b) l) as Hgen.
  { induction l as [|x l IH]; intros Hl; constructor.
    - apply IH. intros i j a b Hi Hj Hlt. apply (Hl (S i) (S j)); [done|done|lia].
    - apply Forall_forall. intros y [j Hj]%list_elem_of_lookup.
      apply (Hl 0%nat (S j)); [done|done|lia]. }
  apply Hgen. intros i j a b. by apply sorted_values_strict.
Qed.

(** X15. Over any well-formed store (gaps left by deletes included) and from
    any cursor, following the next cursors ends within [fuel] requests when
    the store has fewer than [10 * fuel] records, and yields exactly the
    stored records with ids not below the cursor, in strictly ascending
    order of id. *)
Theorem pagination_from_any_cursor self start fuel :
  Store_wf self →
  (size (_data self) < 10 * fuel)%nat →
  ∃ l, paginate fuel self start = Some l
       ∧ StronglySorted (λ a b, id a < id b) l
       ∧ ∀ m, m ∈ l ↔ (∃ k, Store_get self k = Some m) ∧ start ≤ id m.
Proof.
  intros Hwf Hfuel. eexists. split_and!.
  - by apply paginate_filter.
  - by apply StronglySorted_filter, sorted_values_StronglySorted_lt.
  - intros m. rewrite list_elem_of_filter, elem_of_sorted_values.
    unfold Store_get. tauto.
Qed.

Lemma pagination_from_any_cursor_witness :
  Store_wf (run (store_of_size 15) [OpDelete 3]).1
  ∧ ∃ l, paginate 2 (run (store_of_size 15) [OpDelete 3]).1 2 = Some l
         ∧ StronglySorted (λ a b, id a < id b) l
         ∧ ∀ m, m ∈ l ↔
             (∃ k, Store_get (run (store_of_size 15) [OpDelete 3]).1 k = Some m)
             ∧ 2 ≤ id m.
Proof.
  assert (Store_wf (run (store_of_size 15) [OpDelete 3]).1) as Hwf
    by apply run_wf, store_of_size_wf.
  split; [exact Hwf|].
  apply (pagination_from_any_cursor _ 2 2 Hwf).
  vm_compute. lia.
Defined.

(** X16. In a well-formed store, a previous cursor is the id of a record
    strictly ahead of the page's first record, and the page at the previous
    cursor either has that first record as its next cursor or is the first
    page and already holds it. *)
Theorem previous_page_leads_back self start p :
  Store_wf self →
  page_previous (page self start) = Some p →
  ∃ c, head (page_data (page self start)) = Some c
       ∧ p < id c
       ∧ (page_next (page self p) = Some (id c)
          ∨ (page_previous (page self p) = None
             ∧ c ∈ page_data (page self p))).
Proof.
  intros Hwf. rewrite (page_spec self start). cbv zeta.
  destruct (list_find _ _) as [[i c]|] eqn:Hfind; [|done]. simpl.
  apply list_find_Some in Hfind as (Hi & _ & _).
  case_decide as Hpos; [|done].
  intros (q & Hq & ->)%fmap_Some.
  exists c. rewrite (drop_S _ _ _ Hi). split_and!; [done| |].
  - apply (sorted_values_strict self (i - 10) i); [done|done|done|lia].
  - rewrite page_spec. cbv zeta. rewrite (find_own_cursor self Hwf _ _ Hq).
    simpl. destruct (decide (10 ≤ i)%nat) as [Hten|Hfew].
    + left. replace (i - 10 + 10)%nat with i by lia. by rewrite Hi.
    + right. replace (i - 10)%nat with 0%nat by lia. split; [done|].
      rewrite drop_0. apply elem_of_take. exists i. split; [done|lia].
Qed.

Lemma previous_page_leads_back_witness :
  Store_wf (store_of_size 25)
  ∧ page_previous (page (store_of_size 25) 12) = Some 2
  ∧ ∃ c, head (page_data (page (store_of_size 25) 12)) = Some c
         ∧ 2 < id c
         ∧ (page_next (page (store_of_size 25) 2) = Some (id c)
            ∨ (page_previous (page (store_of_size 25) 2) = None
               ∧ c ∈ page_data (page (store_of_size 25) 2))).
Proof.
  assert (Store_wf (store_of_size 25)) as Hwf by apply store_of_size_wf.
  assert (page_previous (page (store_of_size 25) 12) = Some 2) as Hprev
    by (vm_compute; reflexivity).
  split_and!; [exact Hwf | exact Hprev |].
  exact (previous_page_leads_back _ _ _ Hwf Hprev).
Defined.

(** ** Routes *)

Lemma string_app_cons x (a b : string) : String x a +:+ b = String x (a +:+ b).
Proof. reflexivity. Qed.

Lemma string_app_assoc (a b c : string) : (a +:+ b) +:+ c = a +:+ b +:+ c.
Proof.
  induction a as [|x a IH]; [done|]. rewrite !string_app_cons. by f_equal.
Qed.

Lemma strip_prefix_Some p s rest :
  strip_prefix p s = Some rest → s = p +:+ rest.
Proof.
  revert s. induction p as [|a p IH]; intros s; simpl.
  - by intros [= ->].
  - destruct s as [|b s]; [done|]. case_decide; [|done]. subst b.
    intros ->%IH. by rewrite string_app_cons.
Qed.

Lemma strip_prefix_app p s rest t :
  strip_prefix p s = Some rest → strip_prefix p (s +:+ t) = Some (rest +:+ t).
Proof.
  revert s. induction p as [|a p IH]; intros s; simpl.
  - by intros [= ->].
  - destruct s as [|b s]; [done|]. rewrite string_app_cons. simpl.
    case_decide; [|done]. apply IH.
Qed.

Lemma span_digits_app s d r : span_digits s = (d, r) → s = d +:+ r.
Proof.
  revert d r. induction s as [|c s IH]; intros d r; simpl.
  - by intros [= <- <-].
  - destruct (is_digit c); [|by intros [= <- <-]].
    destruct (span_digits s) as [d' r']. intros [= <- <-].
    rewrite string_app_cons. by rewrite (IH d' r').
Qed.

Lemma span_digits_slash s d :
  span_digits s = (d, ""%string) → span_digits (s +:+ "/") = (d, "/"%string).
Proof.
  revert d. induction s as [|c s IH]; intros d.
  - by intros [= <-].
  - rewrite string_app_cons. simpl. destruct (is_digit c); [|done].
    destruct (span_digits s) as [d' r'] eqn:Hs. intros [= <- ->].
    by rewrite (IH d').
Qed.

Lemma no_newline_slash s : no_newline (s +:+ "/") = no_newline s.
Proof.
  induction s as [|c s IH]; [done|]. rewrite string_app_cons. simpl.
  by case_decide.
Qed.




(** X18. No path is matched by two different patterns among [/?],
    [/message/?] and [/message/(?P<id>\d+)/?], so the order in which the
    dispatcher tries the routes of versions 1 and 2 does not matter. *)
Theorem message_patterns_are_disjoint rx1 rx2 path params1 params2 :
  rx1 ≠ RxAny → rx2 ≠ RxAny →
  fullmatch rx1 path = Some params1 →
  fullmatch rx2 path = Some params2 →
  rx1 = rx2.
Proof.
  intros H1 H2.
  destruct rx1, rx2; try done; unfold fullmatch; intros Hm1 Hm2;
    repeat case_decide; try done;
    repeat match goal with
           | H : _ ∨ _ |- _ => destruct H as [-> | ->]
           end; try done;
    simpl in *; repeat case_decide; try done; intuition congruence.
Qed.

Lemma message_patterns_are_disjoint_witness :
  fullmatch RxMessage "/message/" = Some [] ∧ fullmatch RxMessageId "/message/" = None.
Proof.
  split; [reflexivity|].
  destruct (fullmatch RxMessageId "/message/") as [params|] eqn:Hid; [|done].
  pose proof (message_patterns_are_disjoint RxMessage RxMessageId "/message/"
                [] params) as H.
  discriminate H; done.
Defined.

(** X19. A path that a pattern matches and that does not end in a slash is
    still matched, with the same parameters, once a slash is appended. *)
Theorem trailing_slash_is_tolerated rx path params :
  fullmatch rx path = Some params →
  (∀ q, path ≠ q +:+ "/") →
  fullmatch rx (path +:+ "/") = Some params.
Proof.
  intros Hmatch Hslash. destruct rx; unfold fullmatch in *.
  - by rewrite no_newline_slash.
  - case_decide as Hp; [|done]. destruct Hp as [-> | ->]; [done|].
    by destruct (Hslash ""%string).
  - case_decide as Hp; [|done]. destruct Hp as [-> | ->]; [done|].
    by destruct (Hslash "/message"%string).
  - destruct (strip_prefix "/message/" path) as [rest|] eqn:Hrest; [|done].
    rewrite (strip_prefix_app _ _ _ "/" Hrest). simpl in Hmatch. simpl.
    destruct (span_digits rest) as [d r] eqn:Hspan.
    case_decide as Hd; [|done]. destruct Hd as [Hd [-> | ->]].
    + rewrite (span_digits_slash _ _ Hspan). by rewrite decide_True by auto.
    + apply strip_prefix_Some in Hrest. apply span_digits_app in Hspan.
      destruct (Hslash ("/message/" +:+ d)%string).
      by rewrite Hrest, Hspan, string_app_assoc.
Qed.

Lemma trailing_slash_is_tolerated_witness :
  fullmatch RxMessageId "/message/7" = Some [("id", "7")]%string
  ∧ fullmatch RxMessageId "/message/7/" = Some [("id", "7")]%string.
Proof.
  assert (fullmatch RxMessageId "/message/7" = Some [("id", "7")]%string)
    as H by reflexivity.
  split; [exact H|].
  apply (trailing_slash_is_tolerated RxMessageId "/message/7" _ H).
  intros q Hq.
  destruct q as [|c1 [|c2 [|c3 [|c4 [|c5 [|c6 [|c7 [|c8 [|c9 [|c10 q]]]]]]]]]];
    simpl in Hq; try discriminate Hq.
  injection Hq as _ _ _ _ _ _ _ _ _ _ Hq. by destruct q.
Defined.

(** ** The service as a whole *)

Lemma main_router_lookup v methods :
  main_router !! v = Some methods →
  (v = 0 ∧ methods = retired_routes)
  ∨ ((v = 1 ∨ v = 2) ∧ methods = message_routes).
Proof.
  unfold main_router. rewrite !lookup_insert_Some, lookup_empty.
  intros [[<- <-]|[_ [[<- <-]|[_ [[<- <-]|[_ [=]]]]]]]; auto.
Qed.


Lemma Store_delete_false self k :
  (Store_delete self k).2 = false → (Store_delete self k).1 = self.
Proof.
  unfold Store_delete. simpl. intros Hk%bool_decide_eq_false.
  rewrite delete_id, Store_eta; [done|]. by apply eq_None_not_Some.
Qed.

Lemma Store_put_None self now k a c :
  (Store_put self now k a c).2 = None → (Store_put self now k a c).1 = self.
Proof. unfold Store_put. by destruct (_data self !! k). Qed.

Lemma Store_patch_None self now k a c :
  (Store_patch self now k a c).2 = None → (Store_patch self now k a c).1 = self.
Proof. unfold Store_patch. by destruct (_data self !! k). Qed.

Lemma main_route_resolves v methods m paths path h params :
  main_router !! v = Some methods → methods m = Some paths →
  find_route paths path = Some (h, params) → resolves v m h.
Proof.
  intros [[-> ->]|[Hv ->]]%main_router_lookup Hpaths Hroute.
  - destruct m; simpl in *; simplify_eq; simpl in Hroute;
      destruct (no_newline path); simplify_eq; auto.
  - assert (v ≠ 0) by lia.
    destruct m; simpl in *; simplify_eq; simpl in Hroute;
      repeat (case_match; simplify_eq); auto 6.
Qed.


(** What a handler of [main] can return. *)
Ltac unbind H :=
  cbn -[Store_create Store_get Store_put Store_patch Store_delete page] in H.

Lemma handler_effect v m h store now params query body store' result :
  resolves v m h →
  h store now m v params query body = Some (store', result) →
  (store' = store
   ∨ (m = POST ∧ (pad3 result).1.1 = CREATED)
   ∨ (m ∈ [PUT; PATCH; DELETE] ∧ (pad3 result).1.1 = OK))
  ∧ (Store_wf store → Store_wf store')
  ∧ (pad3 result).2 = None
  ∧ (pad3 result).1.1 ∈ [OK; CREATED; NOT_FOUND; GONE]
  ∧ ((pad3 result).1.1 = GONE ↔ v = 0).
Proof.
  assert (∀ st : HTTPStatus, st ∈ [OK; CREATED; NOT_FOUND; GONE] ↔
            st = OK ∨ st = CREATED ∨ st = NOT_FOUND ∨ st = GONE) as Hin.
  { intros st. rewrite !elem_of_cons, elem_of_nil. tauto. }
  intros Hres Hrun.
  destruct m; simpl in Hres; try done;
    destruct Hres as [[-> ->]|[Hv Hh]];
    try (unfold gone in Hrun; simplify_eq; simpl;
         split_and!; [by left|done|done|apply Hin; auto|done]).
  - (* DELETE *)
    subst h. unfold MessageHandlers_delete in Hrun.
    destruct (params_get params "id" ≫= py_int) as [k|]; [|done]. unbind Hrun.
    pose proof (Store_delete_false store k) as Hfalse.
    pose proof (Store_delete_wf store k) as Hwf.
    destruct (Store_delete store k) as [s [|]]; simplify_eq; simpl in *.
    + split_and!; [right; right; split; [rewrite !elem_of_cons; auto|done]|done|done|apply Hin; auto|].
      split; [done|lia].
    + rewrite Hfalse by done.
      split_and!; [by left|done|done|apply Hin; auto|]. split; [done|lia].
  - (* GET *)
    destruct Hh as [-> | [-> | ->]].
    + unfold health in Hrun. simplify_eq. simpl.
      split_and!; [by left|done|done|apply Hin; auto|]. split; [done|lia].
    + unfold MessageHandlers_get in Hrun.
      destruct (params_get params "id" ≫= py_int) as [k|]; [|done].
      unbind Hrun. destruct (Store_get store k); simplify_eq; simpl;
        (split_and!; [by left|done|done|apply Hin; auto|]);
        (split; [done|lia]).
    + unfold MessageHandlers_list in Hrun.
      destruct query as [[start|]|]; simpl in Hrun; simplify_eq; simpl;
        (split_and!; [by left|done|done|apply Hin; auto|]);
        (split; [done|lia]).
  - (* PATCH *)
    subst h. unfold MessageHandlers_patch in Hrun.
    destruct (params_get params "id" ≫= py_int) as [k|]; [|done]. unbind Hrun.
    destruct (body_get body "author") as [a|]; [|done]. unbind Hrun.
    destruct (body_get body "content") as [c|]; [|done]. unbind Hrun.
    pose proof (Store_patch_None store now k a c) as Hnone.
    pose proof (Store_patch_wf store now k a c) as Hwf.
    destruct (Store_patch store now k a c) as [s [msg|]]; simplify_eq; simpl in *.
    + split_and!; [right; right; split; [rewrite !elem_of_cons; auto|done]|done|done|apply Hin; auto|].
      split; [done|lia].
    + rewrite Hnone by done.
      split_and!; [by left|done|done|apply Hin; auto|]. split; [done|lia].
  - (* POST *)
    subst h. unfold MessageHandlers_create in Hrun.
    destruct (body_get body "author") as [a|]; [|done]. unbind Hrun.
    destruct (body_get body "content") as [c|]; [|done]. simpl in Hrun.
    simplify_eq. simpl.
    split_and!; [right; left; done| |done|apply Hin; auto|].
    + apply (Store_create_wf store now a c).
    + split; [done|lia].
  - (* PUT *)
    subst h. unfold MessageHandlers_put in Hrun.
    destruct (params_get params "id" ≫= py_int) as [k|]; [|done]. unbind Hrun.
    destruct (body_get body "author") as [a|]; [|done]. unbind Hrun.
    destruct (body_get body "content") as [c|]; [|done]. unbind Hrun.
    pose proof (Store_put_None store now k a c) as Hnone.
    pose proof (Store_put_wf store now k a c) as Hwf.
    destruct (Store_put store now k a c) as [s [msg|]]; simplify_eq; simpl in *.
    + split_and!; [right; right; split; [rewrite !elem_of_cons; auto|done]|done|done|apply Hin; auto|].
      split; [done|lia].
    + rewrite Hnone by done.
      split_and!; [by left|done|done|apply Hin; auto|]. split; [done|lia].
Qed.

(** The paths through [dispatch] for the router of [main]. *)
Lemma dispatch_main_cases dep store now r body :
  let out := dispatch main_router dep store now r body in
((accept_version r ∉ [Some 0; Some 1; Some 2]) ∧ out = (store, not_acceptable))
  ∨ (∃ v, accept_version r = Some v ∧ v ∈ [0; 1; 2] ∧
      (out = (store, internal_error)
       ∨ out = (store, method_not_allowed)
       ∨ out = (store, route_not_found v)
       ∨ ∃ m h params query store' result,
           HTTPMethod_of (command r) = Some m
           ∧ resolves v m h
           ∧ h store now m v params query body = Some (store', result)
           ∧ out = (store', _respond (pad3 result).1.1 (Some v)
                              (pad3 result).1.2 (annotated dep v)))).
Proof.
  intros out. subst out. unfold dispatch.
  destruct (accept_version r) as [v|] eqn:Hv.
  2:{ left. split; [|done]. rewrite !elem_of_cons, elem_of_nil.
      intros [[=]|[[=]|[[=]|[]]]]. }
  destruct (main_router !! v) as [methods|] eqn:Hrouter.
  2:{ left. split; [|done]. rewrite !elem_of_cons, elem_of_nil.
      intros [[= ->]|[[= ->]|[[= ->]|[]]]]; done. }
  right. exists v. split; [done|]. split.
  { rewrite !elem_of_cons.
    apply main_router_lookup in Hrouter as [[-> _]|[[->| ->] _]]; auto. }
  destruct (HTTPMethod_of (command r)) as [m|] eqn:Hm; [|auto].
  destruct (methods m) as [paths|] eqn:Hpaths; [|auto].
  destruct (target r) as [[path query]|]; [|auto].
  destruct (find_route paths path) as [[h params]|] eqn:Hroute; [|auto].
  pose proof (main_route_resolves _ _ _ _ _ _ _ Hrouter Hpaths Hroute) as Hres.
  destruct (h store now m v params query body) as [[store' result]|] eqn:Hrun;
    [|auto].
  do 3 right. exists m, h, params, query, store', result.
  split_and!; [done|done|done|].
  destruct (handler_effect _ _ _ _ _ _ _ _ _ _ Hres Hrun) as (_ & _ & Hnone & _).
  destruct (pad3 result) as [[st b] hd]. simpl in *. subst hd.
  unfold annotated. by destruct (dep !! v) as [[d s]|].
Qed.

Lemma handle_parsed router dep store now r body :
  request_body (body_in r) = Some body →
  handle_one_request router dep store now (Parsed r)
  = ((dispatch router dep store now r body).1,
     Some (dispatch router dep store now r body).2).
Proof.
  unfold handle_one_request, request_body.
  destruct (body_in r) as [| | |j]; try done.
  - intros [= <-]. by destruct (dispatch _ _ _ _ _ _).
  - case_decide; [done|]. intros [= <-].
    destruct j; try done; by destruct (dispatch _ _ _ _ _ _).
Qed.

(** [handle_one_request] either answers before the dispatch or hands a
    body to it. *)
Lemma handle_one_request_cases router dep store now incoming :
  let out := handle_one_request router dep store now incoming in
  (out.1 = store
   ∧ (out.2 = None ∨ out.2 = Some uri_too_long
      ∨ out.2 = Some internal_error ∨ out.2 = Some bad_request))
  ∨ (∃ r body, incoming = Parsed r ∧ request_body (body_in r) = Some body
       ∧ out = ((dispatch router dep store now r body).1,
                Some (dispatch router dep store now r body).2)).
Proof.
  intros out. subst out.
  destruct incoming as [| | |r]; try (left; simpl; by auto).
  destruct (request_body (body_in r)) as [body|] eqn:Hbody.
  - right. exists r, body. split_and!; [done|done|]. by apply handle_parsed.
  - left. unfold request_body in Hbody. unfold handle_one_request.
    destruct (body_in r) as [| | |j]; try done; try (simpl; by auto).
    case_decide as Hj; [|done]. subst j. simpl. by auto.
Qed.


(** X21. Serving a request keeps a well-formed store well formed. *)
Theorem serve_keeps_store_wf t1 t2 t3 t4 store now incoming :
  Store_wf store → Store_wf (serve t1 t2 t3 t4 store now incoming).1.
Proof.
  intros Hwf. unfold serve.
  destruct (handle_one_request_cases main_router (main_deprecation t1 t2 t3 t4)
              store now incoming) as [[-> _]|(r & body & -> & Hbody & ->)];
    [done|]. simpl.
  destruct (dispatch_main_cases (main_deprecation t1 t2 t3 t4) store now r body)
    as [[_ ->]|(v & Hv & Hin & [->|[->|[->|Hrun]]])]; try done.
  destruct Hrun as (m & h & params & query & store' & result
                    & Hm & Hres & Hrun & ->).
  by apply (handler_effect _ _ _ _ _ _ _ _ _ _ Hres Hrun).
Qed.

(** X22. For a request whose body is absent or decodes to something other
    than [null], the answer is 406 exactly when the negotiated version is
    missing or is none of 0, 1 and 2, whatever the method and the path. *)
Theorem not_acceptable_iff_version_unknown t1 t2 t3 t4 store now r :
  is_Some (request_body (body_in r)) →
  ∃ resp,
    (serve t1 t2 t3 t4 store now (Parsed r)).2 = Some resp
    ∧ (status resp = NOT_ACCEPTABLE
       ↔ accept_version r ∉ [Some 0; Some 1; Some 2]).
Proof.
  intros [body Hbody]. unfold serve. rewrite (handle_parsed _ _ _ _ _ _ Hbody).
  eexists. split; [done|]. simpl.
  destruct (dispatch_main_cases (main_deprecation t1 t2 t3 t4) store now r body)
    as [[Hbad ->]|(v & Hv & Hin & Hcases)]; [done|].
  assert (accept_version r ∈ [Some 0; Some 1; Some 2]) as Hgood.
  { rewrite Hv. rewrite !elem_of_cons, elem_of_nil in Hin. rewrite !elem_of_cons.
    destruct Hin as [->|[->|[->|[]]]]; auto. }
  destruct Hcases as [->|[->|[->|Hrun]]]; try (split; [done|intros []; done]).
  destruct Hrun as (m & h & params & query & store' & result
                    & Hm & Hres & Hrun & ->).
  destruct (handler_effect _ _ _ _ _ _ _ _ _ _ Hres Hrun)
    as (_ & _ & _ & Hst & _). simpl.
  split; [|intros []; done].
  intros Heq. rewrite Heq, !elem_of_cons, elem_of_nil in Hst.
  by destruct Hst as [?|[?|[?|[?|[]]]]].
Qed.

Lemma main_deprecation_0 t1 t2 t3 t4 :
  main_deprecation t1 t2 t3 t4 !! 0 = Some (t1 - 60 * 60 * 24 * 30, t2).
Proof.
  unfold main_deprecation. rewrite lookup_insert_ne by done.
  by rewrite lookup_insert_eq.
Qed.

Lemma main_deprecation_2 t1 t2 t3 t4 : main_deprecation t1 t2 t3 t4 !! 2 = None.
Proof.
  unfold main_deprecation. by rewrite !lookup_insert_ne, lookup_empty by done.
Qed.

Lemma annotated_Some dep v d s st b :
  dep !! v = Some (d, s) →
  let resp := _respond st (Some v) b (annotated dep v) in
  has_header "Deprecation" resp = true ∧ has_header "Sunset" resp = true
  ∧ sends resp "Deprecation" (HAtTime d) ∧ sends resp "Sunset" (HHttpDate s).
Proof.
  intros Hdep. unfold annotated. rewrite Hdep. simpl.
  assert (∀ name value (h : Headers), h !! name = Some value →
            sends (_respond st (Some v) b (Some h)) name value) as Hsends.
  { intros name value h Hh. unfold sends, _respond. simpl.
    do 3 apply list_elem_of_further. by apply elem_of_map_to_list. }
  split_and!.
  - apply has_header_respond. rewrite lookup_insert_ne by done.
    rewrite lookup_insert_eq. by eexists.
  - apply has_header_respond. rewrite lookup_insert_eq. by eexists.
  - apply Hsends. rewrite lookup_insert_ne by done. apply lookup_insert_eq.
  - apply Hsends. apply lookup_insert_eq.
Qed.

(** X23. A response of the service carries a Deprecation header exactly when
    it carries a Sunset header; when it does, their values are the two
    stamps of the deprecation entry of the negotiated version; and every
    200, 201 or 410 response under version 0 or 1 carries both. *)
Theorem deprecation_headers_come_in_pairs t1 t2 t3 t4 store now incoming resp :
  (serve t1 t2 t3 t4 store now incoming).2 = Some resp →
  has_header "Deprecation" resp = has_header "Sunset" resp
  ∧ (has_header "Deprecation" resp = true →
       ∃ r v d s,
         incoming = Parsed r ∧ accept_version r = Some v
         ∧ main_deprecation t1 t2 t3 t4 !! v = Some (d, s)
         ∧ sends resp "Deprecation" (HAtTime d)
         ∧ sends resp "Sunset" (HHttpDate s))
  ∧ (∀ r, incoming = Parsed r →
       accept_version r = Some 0 ∨ accept_version r = Some 1 →
       status resp = OK ∨ status resp = CREATED ∨ status resp = GONE →
       has_header "Deprecation" resp = true).
Proof.
  unfold serve.
  destruct (handle_one_request_cases main_router (main_deprecation t1 t2 t3 t4)
              store now incoming)
    as [[_ [->|[->|[->| ->]]]]|(r & body & -> & Hbody & ->)];
    try done.
  1-3: intros [= <-]; split_and!; [done|done|];
       intros r _ _ [?|[?|?]]; done.
  simpl. intros [= <-].
  destruct (dispatch_main_cases (main_deprecation t1 t2 t3 t4) store now r body)
    as [[_ ->]|(v & Hv & Hin & [->|[->|[->|Hrun]]])].
  1-4: split_and!; [done|done|]; intros r' _ _ [?|[?|?]]; done.
  destruct Hrun as (m & h & params & query & store' & result
                    & Hm & Hres & Hrun & ->). simpl.
  rewrite !elem_of_cons, elem_of_nil in Hin.
  destruct Hin as [->|[->|[->|[]]]].
  - destruct (annotated_Some _ 0 _ _ (pad3 result).1.1 (pad3 result).1.2
                (main_deprecation_0 t1 t2 t3 t4)) as (Hd & Hs & Hsd & Hss).
    rewrite Hd, Hs. split_and!; [done| |done].
    intros _. eexists r, 0, _, _. split_and!; [done|done| |done|done].
    apply main_deprecation_0.
  - destruct (annotated_Some _ 1 _ _ (pad3 result).1.1 (pad3 result).1.2
                (main_deprecation_1 t1 t2 t3 t4)) as (Hd & Hs & Hsd & Hss).
    rewrite Hd, Hs. split_and!; [done| |done].
    intros _. eexists r, 1, _, _. split_and!; [done|done| |done|done].
    apply main_deprecation_1.
  - unfold annotated. rewrite main_deprecation_2.
    split_and!; [done|done|].
    intros r' [= <-] [?|?]; congruence.
Qed.

Lemma deprecation_headers_come_in_pairs_witness :
  ∃ resp,
    (serve 0 0 0 0 (store_of_size 1) 9 (request "GET" "/message/0" 1)).2 = Some resp
    ∧ has_header "Deprecation" resp = true
    ∧ has_header "Sunset" resp = true.
Proof.
  eexists. split; [reflexivity|].
  destruct (deprecation_headers_come_in_pairs 0 0 0 0 (store_of_size 1) 9
              (request "GET" "/message/0" 1) _ eq_refl) as (Hpair & _ & Hon).
  rewrite <- Hpair.
  assert (has_header "Deprecation"
            (_respond OK (Some 1) (Some (BMessage (message_n 0)))
               (annotated (main_deprecation 0 0 0 0) 1)) = true) as H.
  { apply (Hon _ eq_refl); [by right|by left]. }
  split; exact H.
Defined.

Lemma serve_keeps_store_wf_witness :
  Store_wf (store_of_size 2)
  ∧ Store_wf (serve 0 0 0 0 (store_of_size 2) 9 (request "DELETE" "/message/1" 2)).1.
Proof.
  assert (Store_wf (store_of_size 2)) as Hwf by apply store_of_size_wf.
  split; [exact Hwf|].
  exact (serve_keeps_store_wf 0 0 0 0 (store_of_size 2) 9
           (request "DELETE" "/message/1" 2) Hwf).
Defined.

Lemma not_acceptable_iff_version_unknown_witness :
  ∃ resp,
    (serve 0 0 0 0 Store_init 0 (request "GET" "/" 3)).2 = Some resp
    ∧ (status resp = NOT_ACCEPTABLE
       ↔ Some 3 ∉ [Some 0; Some 1; Some 2]).
Proof.
  apply (not_acceptable_iff_version_unknown 0 0 0 0 Store_init 0
           {| command := "GET"; body_in := NoContent; accept_version := Some 3;
              target := Some ("/"%string, None) |}).
  simpl. by eexists.
Defined.




Lemma body_get_not_object body key :
  (∀ fields, body ≠ JObj fields) → body_get body key = None.
Proof. intros Hobj. destruct body; try done. by destruct (Hobj fields). Qed.

Ltac answered :=
  simpl; split; [done|];
  eexists; split_and!; [done | (by left) || (by right) | done].

(** X25. Under version 1 or 2, a POST, PUT or PATCH whose body is absent or
    is not a JSON object leaves the store as it was and is answered with
    500 (or with 404 when no route matches), without deprecation
    headers. *)
Theorem writes_need_an_object_body t1 t2 t3 t4 store now r body :
  request_body (body_in r) = Some body →
  (∀ fields, body ≠ JObj fields) →
  accept_version r = Some 1 ∨ accept_version r = Some 2 →
  command r ∈ ["POST"; "PUT"; "PATCH"]%string →
  let out := serve t1 t2 t3 t4 store now (Parsed r) in
  out.1 = store
  ∧ ∃ resp, out.2 = Some resp
            ∧ (status resp = INTERNAL_SERVER_ERROR ∨ status resp = NOT_FOUND)
            ∧ has_header "Deprecation" resp = false.
Proof.
  intros Hbody Hobj Hv Hc out. subst out. unfold serve.
  rewrite (handle_parsed _ _ _ _ _ _ Hbody). simpl.
  pose proof (body_get_not_object body "author" Hobj) as Hauthor.
  assert (main_router !! 2 = Some message_routes) as Hrouter2 by reflexivity.
  unfold dispatch.
  rewrite !elem_of_cons, elem_of_nil in Hc.
  destruct Hv as [Hv|Hv]; rewrite Hv, ?main_router_1, ?Hrouter2;
    destruct Hc as [Hc|[Hc|[Hc|[]]]]; rewrite Hc;
    match goal with
    | |- context [HTTPMethod_of ?c] =>
        let m := eval vm_compute in (HTTPMethod_of c) in
        change (HTTPMethod_of c) with m
    end; cbn [message_routes];
    (destruct (target r) as [[path query]|]; [|answered]);
    cbn [find_route];
    (destruct (fullmatch _ path) as [params|]; [|answered]);
    unfold MessageHandlers_create, MessageHandlers_put, MessageHandlers_patch;
    rewrite Hauthor;
    (destruct (params_get params "id" ≫= py_int); answered).
Qed.

Lemma writes_need_an_object_body_witness :
  (serve 0 0 0 0 (store_of_size 1) 9 (request "POST" "/message" 2)).1
  = store_of_size 1.
Proof.
  refine (proj1 (writes_need_an_object_body 0 0 0 0 (store_of_size 1) 9
           {| command := "POST"; body_in := NoContent; accept_version := Some 2;
              target := Some ("/message"%string, None) |} JNull eq_refl _ _ _)).
  - discriminate.
  - by right.
  - apply list_elem_of_here.
Defined.
